(** * Node coherence analyser (tvb/analyzers/node_coherence.py)

    A shallow embedding of the Hamming window generator, of the vectorised
    coherence estimator, of the per-pair estimator built on mlab.cohere and
    of the shape and size queries of the NodeCoherence adapter.

    Numbers.  Python integers are [Z] (shapes and indices are [nat]); the
    module is Python 2, so [/] between integers is floor division; numpy's
    integer reductions are 64 bits wide and wrap around.  Floating
    point values are modelled by exact reals [R]: every statement below is a
    statement of exact arithmetic.  A division whose divisor is zero yields
    inf or nan in numpy; such a non-finite entry is [None] here and a finite
    one is [Some]. *)

From Stdlib Require Import Reals Lra Lia ZArith List String Bool DecimalString.
Import ListNotations.

Set Implicit Arguments.

(** ** Exceptions and the order of numerical work *)

Inductive exn : Type :=
| ValueError (msg : string)
| ZeroDivisionError (msg : string)
| IndexError (msg : string)
| UnboundLocalError (msg : string).

(** The numerical kernels a call may run, logged in the order they run. *)
Inductive kernel : Type :=
| KSegment      (* slice, copy, transpose and reshape of the series *)
| KWindow       (* hamming(nfft) and the tapering product *)
| KFFT          (* numpy.fft.fft *)
| KFFTFreq      (* numpy.fft.fftfreq *)
| KCrossPower   (* the broadcast product F * conj(F) *)
| KNormalise    (* |G|^2 / (dG_i dG_j) and the mean over segments *)
| KDetrend      (* removal of the per-channel mean *)
| KCohere       (* one call of mlab.cohere *)
| KZeros.       (* numpy.zeros(coh_shape) *)

Record run (A : Type) : Type := Run { trace : list kernel; outcome : exn + A }.

Definition ret {A} (a : A) : run A := Run [] (inr a).
Definition raise {A} (e : exn) : run A := Run [] (inl e).
Definition tick (k : kernel) : run unit := Run [k] (inr tt).

Definition bind {A B} (c : run A) (f : A -> run B) : run B :=
  match outcome c with
  | inl e => Run (trace c) (inl e)
  | inr a => let r := f a in Run (trace c ++ trace r) (outcome r)
  end.

Declare Scope run_scope.
Delimit Scope run_scope with run.
Notation "x <- c ;; k" := (bind c (fun x => k))
  (at level 61, c at next level, right associativity) : run_scope.
Notation "c ;;; k" := (bind c (fun _ => k))
  (at level 61, right associativity) : run_scope.

(** ** Python helpers *)

(** str() of an integer. *)
Definition str (z : Z) : string := NilZero.string_of_int (Z.to_int z).

(** Integer [a / b] of Python 2: floor division, an exception on [b = 0]. *)
Definition py_div (a b : Z) : run Z :=
  if (b =? 0)%Z
  then raise (ZeroDivisionError "integer division or modulo by zero")
  else ret (a / b)%Z.

(** Float [a / b] of Python. *)
Definition py_fdiv (a b : R) : run R :=
  if Req_dec_T b 0
  then raise (ZeroDivisionError "float division by zero")
  else ret (a / b)%R.

(** [a, b, c, d = t] for a tuple [t]. *)
Definition unpack4 (t : list nat) : run (nat * nat * nat * nat) :=
  match t with
  | [a; b; c; d] => ret (a, b, c, d)
  | _ =>
      if (List.length t <? 4)%nat
      then raise (ValueError
                    ("need more than " ++ str (Z.of_nat (List.length t)) ++
                     (if (List.length t =? 1)%nat then " value" else " values") ++
                     " to unpack"))
      else raise (ValueError "too many values to unpack")
  end.

(** The message of a failed unpacking. *)
Definition unpack_message (msg : string) : bool :=
  (String.prefix "need more than " msg || String.eqb msg "too many values to unpack")%bool.

(** numpy.arange(lo, hi) on integers. *)
Definition arange (lo hi : Z) : list Z :=
  map (fun i => (lo + Z.of_nat i)%Z) (seq 0 (Z.to_nat (hi - lo))).

(** ** Arrays *)

(** An n-dimensional array: its shape and its entry at a multi-index. *)
Record ndarray (A : Type) : Type := NdArray { shape : list nat; item : list nat -> A }.

(** ** Complex numbers *)

Record complex : Type := Cx { Re : R; Im : R }.

Definition C0 : complex := Cx 0 0.
Definition C1 : complex := Cx 1 0.
Definition Cadd (a b : complex) : complex := Cx (Re a + Re b) (Im a + Im b).
Definition Cmul (a b : complex) : complex :=
  Cx (Re a * Re b - Im a * Im b) (Re a * Im b + Im a * Re b).
Definition Cconj (a : complex) : complex := Cx (Re a) (- Im a).
Definition Cscale (r : R) (a : complex) : complex := Cx (r * Re a) (r * Im a).
Definition Cabs (a : complex) : R := sqrt (Re a * Re a + Im a * Im a).
Definition Cnorm2 (a : complex) : R := Re a * Re a + Im a * Im a.

Definition complex_eq_dec (a b : complex) : {a = b} + {a <> b}.
Proof.
  destruct a as [ar ai], b as [br bi].
  destruct (Req_dec_T ar br) as [Hr | Hr]; [| right; intros H; inversion H; contradiction].
  destruct (Req_dec_T ai bi) as [Hi | Hi]; [| right; intros H; inversion H; contradiction].
  left; subst; reflexivity.
Defined.

(** [a / b]: non-finite when [b] is zero. *)
Definition Cdiv (a b : complex) : option complex :=
  if complex_eq_dec b C0 then None
  else Some (Cx ((Re a * Re b + Im a * Im b) / Cnorm2 b)
                ((Im a * Re b - Re a * Im b) / Cnorm2 b)).

(** Sum of a list of complex numbers and numpy's mean along an axis: a
    non-finite term makes the mean non-finite. *)
Definition Csum (l : list complex) : complex := fold_right Cadd C0 l.

Fixpoint sequence_opt {A} (l : list (option A)) : option (list A) :=
  match l with
  | [] => Some []
  | None :: _ => None
  | Some a :: r => match sequence_opt r with Some r' => Some (a :: r') | None => None end
  end.

Definition Cmean (l : list (option complex)) : option complex :=
  match sequence_opt l with
  | None => None
  | Some xs => if (List.length xs =? 0)%nat then None
               else Some (Cscale (/ INR (List.length xs)) (Csum xs))
  end.

(** ** hamming *)

Definition hamming (M : Z) (sym : bool) : list R :=
  if (M <? 1)%Z then []
  else if (M =? 1)%Z then [1%R]
  else
    let odd := (M mod 2)%Z in
    let periodic := negb sym && (odd =? 0)%Z in
    let M' := if periodic then (M + 1)%Z else M in
    let n := arange 0 M' in
    let w := map (fun n => (0.54 - 0.46 * cos (2 * PI * IZR n / IZR (M' - 1)))%R) n in
    if periodic then removelast w else w.

(** ** numpy.fft *)

(** numpy.fft.fft along the last axis, by its definition: bin [k] of the
    discrete Fourier transform of the real sequence [x 0 .. x (N-1)]. *)
Definition twiddle (N k t : nat) : complex :=
  let a := (2 * PI * INR k * INR t / INR N)%R in Cx (cos a) (- sin a).

Definition fft (N : nat) (x : nat -> R) (k : nat) : complex :=
  Csum (map (fun t => Cscale (x t) (twiddle N k t)) (seq 0 N)).

(** numpy.fft.fftfreq(n, d). *)
Definition fftfreq (n : Z) (d : R) : run (list R) :=
  (val <- py_fdiv 1 (IZR n * d) ;;
   let N := ((n - 1) / 2 + 1)%Z in
   let results := arange 0 N ++ arange (- (n / 2)) 0 in
   ret (map (fun r => (IZR r * val)%R) results))%run.

(** [fs > 0.0] and selection by a boolean mask. *)
Definition positive (x : R) : bool := if Rlt_dec 0 x then true else false.

Definition selected (mask : list bool) : list nat :=
  filter (fun k => nth k mask false) (seq 0 (List.length mask)).

Definition take_mask {A} (d : A) (l : list A) (mask : list bool) : list A :=
  map (fun k => nth k l d) (selected mask).

(** ** coherence *)

Definition not_enough_time_points (nt : nat) (nfft : Z) : string :=
  "Not enough time points (" ++ str (Z.of_nat nt) ++
  ") to compute an FFT, given a window size of nfft=" ++ str nfft ++ ".".

(** [data[:nwin * nfft].copy().transpose((2, 1, 3, 0)).reshape((nn, ns, nm, nwin, nfft))]:
    entry [n, s, m, w, t] is sample [w * nfft + t] of node [n]. *)
Definition segments (data : ndarray R) (nfft : nat) (n s m w t : nat) : R :=
  item data [(w * nfft + t)%nat; s; n; m].

(** [wins *= hamming(nfft)], broadcast along the last axis. *)
Definition taper (wins : nat -> nat -> nat -> nat -> nat -> R) (win : list R)
  (n s m w t : nat) : R :=
  (wins n s m w t * nth t win 0)%R.

(** [F = numpy.fft.fft(wins)]. *)
Definition spectra (data : ndarray R) (nfft : Z) (n s m w k : nat) : complex :=
  fft (Z.to_nat nfft)
      (taper (segments data (Z.to_nat nfft)) (hamming nfft true) n s m w) k.

(** [G = F[:, newaxis] * F.conj()], then [G = G.imag] when [imag] is set.
    The real array [G.imag] is kept as complex numbers of imaginary part
    zero, on which abs, the product and the quotient are those of the reals. *)
Definition cross_power (F : nat -> nat -> nat -> nat -> nat -> complex) (imag : bool)
  (i j s m w k : nat) : complex :=
  let g := Cmul (F i s m w k) (Cconj (F j s m w k)) in
  if imag then Cx (Im g) 0 else g.

(** [numpy.abs(G)**2 / (dG[:, newaxis] * dG)] with [dG[i] = G[i, i]]. *)
Definition ratio (G : nat -> nat -> nat -> nat -> nat -> nat -> complex)
  (i j s m w k : nat) : option complex :=
  Cdiv (Cx (Cabs (G i j s m w k) ^ 2) 0) (Cmul (G i i s m w k) (G j j s m w k)).

(** [(...).mean(axis=-2)]: the mean over the [nwin] segments. *)
Definition segment_mean (nwin : nat) (r : nat -> nat -> nat -> nat -> nat -> nat -> option complex)
  (i j s m k : nat) : option complex :=
  Cmean (map (fun w => r i j s m w k) (seq 0 nwin)).

(** The quotient divides [|G|^2], of shape (nn, nn, ns, nm, nwin, nfft), by
    [dG[:, newaxis] * dG].  With at least one node the divisor has the same
    shape; with none, [numpy.array([])] has shape (0,), the divisor has
    shape (0, 0) and numpy rejects the operands, or, when both trailing
    axes have length one, the boolean mask that follows. *)
Definition broadcast_divisor (nn : nat) (nwin nfft : Z) : run unit :=
  if (nn =? 0)%nat
  then if ((nwin =? 1) && (nfft =? 1))%Z
       then raise (IndexError "boolean index did not match indexed array")
       else raise (ValueError "operands could not be broadcast together")
  else ret tt.

Definition coherence (data : ndarray R) (sample_rate : R) (nfft : Z) (imag : bool)
  : run (ndarray (option complex) * list R) :=
  (sh <- unpack4 (shape data) ;;
   let '(nt, ns, nn, nm) := sh in
   nwin <- py_div (Z.of_nat nt) nfft ;;
   if (nwin <? 1)%Z
   then raise (ValueError (not_enough_time_points nt nfft))
   else
     tick KSegment ;;;
     tick KWindow ;;;
     tick KFFT ;;;
     let F := spectra data nfft in
     d <- py_fdiv 1e3 sample_rate ;;
     tick KFFTFreq ;;;
     fs <- fftfreq nfft d ;;
     tick KCrossPower ;;;
     let G := cross_power F imag in
     tick KNormalise ;;;
     broadcast_divisor nn nwin nfft ;;;
     let C := segment_mean (Z.to_nat nwin) (ratio G) in
     let mask := map positive fs in
     let bins := selected mask in
     ret (NdArray [List.length bins; nn; nn; ns; nm]
            (fun ix => match ix with
                       | [f; i; j; s; m] => C i j s m (nth f bins 0%nat)
                       | _ => None
                       end),
          take_mask 0%R fs mask))%run.

(** ** The NodeCoherence adapter *)

Record TimeSeries : Type := { ts_data : ndarray R; sample_rate : R }.

Record NodeCoherence : Type := { time_series : TimeSeries; nfft : Z }.

Record CoherenceSpectrum : Type :=
  { source : TimeSeries; spectrum_nfft : Z;
    array_data : ndarray (option complex); frequency : list R }.

Definition evaluate (self : NodeCoherence) : run CoherenceSpectrum :=
  (let srate := sample_rate (time_series self) in
   r <- coherence (ts_data (time_series self)) srate (nfft self) false ;;
   ret {| source := time_series self; spectrum_nfft := nfft self;
          array_data := fst r; frequency := snd r |})%run.

(** [t[i]] for a tuple of integers. *)
Definition tuple_get (t : list Z) (i : nat) : run Z :=
  match nth_error t i with
  | Some v => ret v
  | None => raise (IndexError "tuple index out of range")
  end.

Definition result_shape (self : NodeCoherence) (input_shape : list Z) : run (list (list Z)) :=
  (let freq_len := (nfft self / 2 + 1)%Z in
   let freq_shape := [freq_len] in
   n1 <- tuple_get input_shape 2 ;;
   n2 <- tuple_get input_shape 2 ;;
   sv <- tuple_get input_shape 1 ;;
   md <- tuple_get input_shape 3 ;;
   ret [[freq_len; n1; n2; sv; md]; freq_shape])%run.


Definition wrap64 (z : Z) : Z :=
  ((z + 9223372036854775808) mod 18446744073709551616 - 9223372036854775808)%Z.

(** numpy.prod of a tuple and numpy.sum of a list of 64-bit integers: the
    reductions of [*] and [+], each step in 64 bits. *)
Definition prod (t : list Z) : Z := fold_left (fun acc x => wrap64 (acc * x)) t 1%Z.
Definition sum (l : list Z) : Z := fold_left (fun acc x => wrap64 (acc + x)) l 0%Z.

Definition result_size (self : NodeCoherence) (input_shape : list Z) : run R :=
  (shapes <- result_shape self input_shape ;;
   ret (IZR (sum (map prod shapes)) * 8)%R)%run.

Definition extended_result_size (self : NodeCoherence) (input_shape : list Z) : run R :=
  result_size self input_shape.

(** ** matplotlib.mlab, as coherence_mlab calls it

    [mlab.cohere(x, y, NFFT, Fs, detrend_linear, window_none)], by its
    definition: the signals are cut into consecutive blocks of [NFFT]
    samples, each block is detrended and transformed, the cross and auto
    spectra are averaged over the blocks, and the quotient is taken once,
    on the averages, for the bins [0 .. NFFT/2]. *)

Definition Rsum (N : nat) (f : nat -> R) : R := fold_right Rplus 0%R (map f (seq 0 N)).
Definition Rmean (N : nat) (f : nat -> R) : R := (Rsum N f / INR N)%R.

(** detrend_linear: [y] minus its least-squares line. *)
Definition detrend_linear (N : nat) (y : nat -> R) (t : nat) : R :=
  let x := fun t => INR t in
  let xbar := Rmean N x in
  let ybar := Rmean N y in
  let c01 := Rmean N (fun t => (x t - xbar) * (y t - ybar))%R in
  let c00 := Rmean N (fun t => (x t - xbar) * (x t - xbar))%R in
  let b := (c01 / c00)%R in
  let a := (ybar - b * xbar)%R in
  (y t - (b * x t + a))%R.

(** The transform of block [w]; window_none multiplies by ones. *)
Definition mlab_block_fft (NFFT : nat) (x : nat -> R) (w k : nat) : complex :=
  fft NFFT (fun t => (1 * detrend_linear NFFT (fun t => x (w * NFFT + t)%nat) t)%R) k.

(** [Pxy[k]] of mlab.csd: conj(fx) * fy per block, divided by the norm of
    the window, doubled away from the first and last bin, divided by [Fs],
    then averaged over the blocks. *)
Definition mlab_csd (NFFT nseg : nat) (Fs : R) (x y : nat -> R) (k : nat) : complex :=
  let numFreqs := (NFFT / 2 + 1)%nat in
  let scaling := if ((1 <=? k) && (k <? numFreqs - 1))%nat then 2%R else 1%R in
  Cscale (/ INR nseg)
    (Csum (map (fun w => Cscale (scaling / INR NFFT / Fs)
                           (Cmul (Cconj (mlab_block_fft NFFT x w k))
                                 (mlab_block_fft NFFT y w k)))
               (seq 0 nseg))).

Definition mlab_psd (NFFT nseg : nat) (Fs : R) (x : nat -> R) (k : nat) : R :=
  Re (mlab_csd NFFT nseg Fs x x k).

(** A real quotient: non-finite when the divisor is zero. *)
Definition Rdiv_opt (a b : R) : option R :=
  if Req_dec_T b 0 then None else Some (a / b)%R.

(** One entry of the array mlab.cohere returns for two signals. *)
Definition mlab_cxy (NFFT nseg : nat) (Fs : R) (x y : nat -> R) (k : nat) : option R :=
  Rdiv_opt (Cabs (mlab_csd NFFT nseg Fs x y k) ^ 2)
           (mlab_psd NFFT nseg Fs x k * mlab_psd NFFT nseg Fs y k).

Definition mlab_cohere (len : nat) (x y : nat -> R) (NFFT : Z) (Fs : R)
  : run (list (option R) * list R) :=
  if (Z.of_nat len <? 2 * NFFT)%Z
  then raise (ValueError ("Coherence is calculated by averaging over NFFT length " ++
                          "segments.  Your signal is too short for your choice of NFFT"))
  else if (NFFT <? 0)%Z then raise (ValueError "negative dimensions are not allowed")
  else if (NFFT =? 0)%Z then raise (ZeroDivisionError "division by zero")
  else
    let N := Z.to_nat NFFT in
    let nseg := (len / N)%nat in
    let numFreqs := (N / 2 + 1)%nat in
    let Cxy := map (mlab_cxy N nseg Fs x y) (seq 0 numFreqs) in
    let f := map (fun k => (Fs / INR N * INR k)%R) (seq 0 numFreqs) in
    ret (Cxy, f).

(** ** coherence_mlab *)

(** [for i in l: body], threading the variables the body assigns. *)
Fixpoint for_each {S} (l : list nat) (body : nat -> S -> run S) (s : S) : run S :=
  match l with
  | [] => ret s
  | i :: r => bind (body i s) (for_each r body)
  end.

(** [data[:, var, :, mode].copy()]. *)
Definition slice_var_mode (data : ndarray R) (var mode : nat) : run (ndarray R) :=
  match shape data with
  | nt :: ns :: nn :: nm :: rest =>
      if ((var <? ns) && (mode <? nm))%nat
      then ret (NdArray (nt :: nn :: rest)
                  (fun ix => match ix with
                             | t :: n :: r => item data (t :: var :: n :: mode :: r)
                             | _ => 0%R
                             end))
      else raise (IndexError "index out of bounds")
  | _ => raise (IndexError "too many indices")
  end.

(** [data -= data.mean(axis=0)[numpy.newaxis, :]] on a 2-D array. *)
Definition remove_mean (d : ndarray R) : ndarray R :=
  NdArray (shape d)
    (fun ix => match ix with
               | t :: r => (item d ix - Rmean (hd 0%nat (shape d)) (fun t' => item d (t' :: r)))%R
               | _ => item d ix
               end).

(** [coh[:, n1, n2, var, mode] = cxy]. *)
Definition assign_column (coh : ndarray (option R)) (n1 n2 var mode : nat)
  (cxy : list (option R)) : ndarray (option R) :=
  NdArray (shape coh)
    (fun ix => match ix with
               | [k; a; b; c; d] =>
                   if ((a =? n1) && (b =? n2) && (c =? var) && (d =? mode))%nat
                   then match nth_error cxy k with Some v => v | None => item coh ix end
                   else item coh ix
               | _ => item coh ix
               end).

(** The variables the loops of coherence_mlab assign. *)
Record mlab_vars : Type :=
  { v_data : ndarray R; v_coh : ndarray (option R); v_freq : option (list R) }.

(** [cxy, freq = mlab.cohere(...); coh[:, n1, n2, var, mode] = cxy]. *)
Definition store_cohere (vars : mlab_vars) (n1 n2 var mode : nat)
  (r : list (option R) * list R) : mlab_vars :=
  {| v_data := v_data vars;
     v_coh := assign_column (v_coh vars) n1 n2 var mode (fst r);
     v_freq := Some (snd r) |}.

(** The signal of node [n] that mlab.cohere receives for state variable
    [var] and mode [mode] of a 4-D series of [nt] samples: the channel minus
    its mean over time. *)
Definition mlab_channel (data : ndarray R) (nt var mode n : nat) (t : nat) : R :=
  (item data [t; var; n; mode] - Rmean nt (fun t' => item data [t'; var; n; mode]))%R.

Definition coherence_mlab (data : ndarray R) (sample_rate : R) (nfft : Z)
  : run (ndarray (option R) * list R) :=
  (sh <- unpack4 (shape data) ;;
   let '(_, nsvar, nnode, nmode) := sh in
   let freq_len := (nfft / 2 + 1)%Z in
   if (freq_len <? 0)%Z then raise (ValueError "negative dimensions are not allowed")
   else
     tick KZeros ;;;
     let coh := NdArray [Z.to_nat freq_len; nnode; nnode; nsvar; nmode]
                        (fun _ => Some 0%R) in
     vars <- for_each (seq 0 nmode) (fun mode =>
       for_each (seq 0 nsvar) (fun var vars =>
         d <- slice_var_mode (v_data vars) var mode ;;
         tick KDetrend ;;;
         let d := remove_mean d in
         for_each (seq 0 nnode) (fun n1 =>
           for_each (seq 0 nnode) (fun n2 vars =>
             tick KCohere ;;;
             r <- mlab_cohere (hd 0%nat (shape d))
                    (fun t => item d [t; n1]) (fun t => item d [t; n2])
                    nfft sample_rate ;;
             ret (store_cohere vars n1 n2 var mode r)))
           {| v_data := d; v_coh := v_coh vars; v_freq := v_freq vars |}))
       {| v_data := data; v_coh := coh; v_freq := None |} ;;
     match v_freq vars with
     | Some freq => ret (v_coh vars, freq)
     | None => raise (UnboundLocalError
                        "local variable 'freq' referenced before assignment")
     end)%run.


(** ** Three small series

    Shape (8, 1, 2, 1): two segments of four samples for two nodes.  The
    first series is identically zero; the second has, at the start of every
    segment, one unit impulse on node 0 and an impulse of height 2 on node 1;
    the third has a unit impulse at the start of every segment on both nodes,
    with its sign flipped in the second segment of node 1. *)

Definition zero_series : ndarray R := NdArray [8; 1; 2; 1]%nat (fun _ => 0%R).

Definition flipped_series : ndarray R :=
  NdArray [8; 1; 2; 1]%nat
    (fun ix => match ix with
               | [t; _; n; _] =>
                   if (t mod 4 =? 0)%nat
                   then (if ((n =? 1) && (4 <=? t))%nat then (-1)%R else 1%R)
                   else 0%R
               | _ => 0%R
               end).

Definition impulse_series : ndarray R :=
  NdArray [8; 1; 2; 1]%nat
    (fun ix => match ix with
               | [t; _; n; _] => if (t mod 4 =? 0)%nat then INR (S n) else 0%R
               | _ => 0%R
               end).

(** ** Derived series and an adapter, for the properties below *)

(** The series multiplied by a constant. *)
Definition scale_series (c : R) (data : ndarray R) : ndarray R :=
  NdArray (shape data) (fun ix => (c * item data ix)%R).

(** The impulse series with its last two samples replaced by 7. *)
Definition tail_changed_series : ndarray R :=
  NdArray [8; 1; 2; 1]%nat
    (fun ix => match ix with
               | t :: _ => if (t <? 6)%nat then item impulse_series ix else 7%R
               | _ => 0%R
               end).

(** The adapter on the impulse series, 1000 samples per second, nfft = 4. *)
Definition impulse_adapter : NodeCoherence :=
  {| time_series := {| ts_data := impulse_series; sample_rate := 1000 |}; nfft := 4 |}.

(** * Properties *)

(** ** The run monad *)

Lemma bind_ret {A B} (a : A) (f : A -> run B) : bind (ret a) f = f a.
Proof. unfold bind, ret; simpl. destruct (f a); reflexivity. Qed.

Lemma bind_raise {A B} (e : exn) (f : A -> run B) : bind (raise e) f = raise e.
Proof. reflexivity. Qed.

Lemma bind_tick {B} (k : kernel) (f : unit -> run B) :
  bind (tick k) f = Run (k :: trace (f tt)) (outcome (f tt)).
Proof. reflexivity. Qed.

Lemma py_div_nonzero (a b : Z) : b <> 0%Z -> py_div a b = ret (a / b)%Z.
Proof. intros H. unfold py_div. destruct (Z.eqb_spec b 0); [contradiction | reflexivity]. Qed.

Lemma py_div_zero (a : Z) :
  py_div a 0 = raise (ZeroDivisionError "integer division or modulo by zero").
Proof. reflexivity. Qed.

Lemma py_fdiv_nonzero (a b : R) : b <> 0%R -> py_fdiv a b = ret (a / b)%R.
Proof. intros H. unfold py_fdiv. destruct (Req_dec_T b 0); [contradiction | reflexivity]. Qed.

Lemma unpack4_four (a b c d : nat) : unpack4 [a; b; c; d] = ret (a, b, c, d).
Proof. reflexivity. Qed.

Lemma unpack4_not_four (t : list nat) :
  List.length t <> 4%nat ->
  exists msg, unpack4 t = raise (ValueError msg) /\ unpack_message msg = true.
Proof.
  intros H. unfold unpack4.
  destruct t as [| a [| b [| c [| d [| e t]]]]]; simpl in *;
    try (eexists; split; [reflexivity | reflexivity]).
  contradiction H; reflexivity.
Qed.

(** ** hamming *)

Lemma arange_length (lo hi : Z) : List.length (arange lo hi) = Z.to_nat (hi - lo).
Proof. unfold arange. now rewrite length_map, length_seq. Qed.

Lemma arange_nth (lo hi : Z) (k : nat) (d : Z) :
  (k < Z.to_nat (hi - lo))%nat -> nth k (arange lo hi) d = (lo + Z.of_nat k)%Z.
Proof.
  intros H. unfold arange.
  rewrite nth_indep with (d' := (lo + Z.of_nat 0)%Z) by now rewrite length_map, length_seq.
  rewrite map_nth with (f := fun i => (lo + Z.of_nat i)%Z).
  now rewrite seq_nth.
Qed.

(** The symmetric window of at least two points. *)
Lemma hamming_sym_general (M : Z) :
  (2 <= M)%Z ->
  hamming M true =
  map (fun n => (0.54 - 0.46 * cos (2 * PI * IZR n / IZR (M - 1)))%R) (arange 0 M).
Proof.
  intros H. unfold hamming.
  destruct (Z.ltb_spec M 1); [lia |].
  destruct (Z.eqb_spec M 1); [lia |].
  reflexivity.
Qed.

Lemma hamming_sym_nth (M : Z) (n : nat) :
  (2 <= M)%Z -> (Z.of_nat n < M)%Z ->
  nth n (hamming M true) 0%R = (0.54 - 0.46 * cos (2 * PI * INR n / IZR (M - 1)))%R.
Proof.
  intros H Hn. rewrite hamming_sym_general by assumption.
  rewrite nth_indep with (d' := (0.54 - 0.46 * cos (2 * PI * IZR 0 / IZR (M - 1)))%R)
    by (rewrite length_map, arange_length; lia).
  rewrite map_nth with (f := fun n => (0.54 - 0.46 * cos (2 * PI * IZR n / IZR (M - 1)))%R).
  rewrite arange_nth by lia.
  rewrite Z.add_0_l, <- INR_IZR_INZ. reflexivity.
Qed.

Lemma hamming_periodic_even (M : Z) :
  (2 <= M)%Z -> (M mod 2 = 0)%Z ->
  hamming M false =
  removelast (map (fun n => (0.54 - 0.46 * cos (2 * PI * IZR n / IZR (M + 1 - 1)))%R)
                  (arange 0 (M + 1))).
Proof.
  intros H Hev. unfold hamming.
  destruct (Z.ltb_spec M 1); [lia |].
  destruct (Z.eqb_spec M 1); [lia |].
  rewrite Hev. reflexivity.
Qed.

(** C7.  The window generator: a length below one gives the empty window and
    no error; length one gives the single value 1.0; a symmetric window of
    [M >= 2] points has [M] samples, sample [n] being
    0.54 - 0.46 cos(2 pi n / (M - 1)); and for an even [M] the window asked
    with [sym] false is the symmetric window of [M + 1] points without its
    last sample. *)
Theorem hamming_window_identity (M : Z) (sym : bool) :
  ((M < 1)%Z -> hamming M sym = []) /\
  hamming 1 sym = [1%R] /\
  ((2 <= M)%Z ->
   List.length (hamming M true) = Z.to_nat M /\
   forall n : nat, (Z.of_nat n < M)%Z ->
     nth n (hamming M true) 0%R =
     (0.54 - 0.46 * cos (2 * PI * INR n / IZR (M - 1)))%R) /\
  ((M mod 2 = 0)%Z -> hamming M false = removelast (hamming (M + 1) true)).
Proof.
  split; [| split; [| split]].
  - intros H. unfold hamming. destruct (Z.ltb_spec M 1); [reflexivity | lia].
  - reflexivity.
  - intros H. rewrite hamming_sym_general by assumption. split.
    + rewrite length_map, arange_length. f_equal. lia.
    + intros n Hn. rewrite <- hamming_sym_general by assumption.
      now apply hamming_sym_nth.
  - intros Hev.
    destruct (Z.ltb_spec M 1) as [Hlt | Hge].
    + (* an even length below one: both sides are empty *)
      assert (Hl : hamming M false = []) by (unfold hamming; destruct (Z.ltb_spec M 1); [reflexivity | lia]).
      rewrite Hl.
      destruct (Z.eq_dec M 0) as [-> | Hne]; [reflexivity |].
      unfold hamming. destruct (Z.ltb_spec (M + 1) 1); [reflexivity | lia].
    + assert (HM : (2 <= M)%Z).
      { destruct (Z.eq_dec M 1) as [-> | ?]; [discriminate Hev | lia]. }
      rewrite hamming_periodic_even by assumption.
      rewrite hamming_sym_general by lia. reflexivity.
Qed.

(** The window at concrete lengths: an empty window for length 0, four
    samples for length 4, and the periodic window of length 4. *)
Lemma hamming_window_identity_witness :
  hamming 0 true = [] /\
  List.length (hamming 4 true) = 4%nat /\
  nth 3 (hamming 4 true) 0%R = (0.54 - 0.46 * cos (2 * PI * INR 3 / IZR (4 - 1)))%R /\
  hamming 4 false = removelast (hamming (4 + 1) true).
Proof.
  destruct (hamming_window_identity 0 true) as [H0 _].
  destruct (hamming_window_identity 4 true) as [_ [_ [H4 Hp]]].
  split; [apply H0; lia |].
  destruct (H4 ltac:(lia)) as [Hlen Hnth].
  split; [exact Hlen |].
  split; [apply (Hnth 3%nat); simpl; lia |].
  apply Hp. reflexivity.
Defined.

(** ** Errors of coherence *)

Lemma coherence_unpacked (data : ndarray R) (sr : R) (n : Z) (imag : bool)
  (nt ns nn nm : nat) :
  shape data = [nt; ns; nn; nm] -> n <> 0%Z ->
  (Z.of_nat nt / n < 1)%Z ->
  coherence data sr n imag = Run [] (inl (ValueError (not_enough_time_points nt n))).
Proof.
  intros Hsh Hn Hlt. unfold coherence.
  rewrite Hsh, unpack4_four, bind_ret, py_div_nonzero, bind_ret by assumption.
  destruct (Z.ltb_spec (Z.of_nat nt / n) 1); [reflexivity | lia].
Qed.

(** Past the two checks: [1e3 / sample_rate] fails for a zero sample rate,
    a series without nodes fails in the quotient, and every other call
    returns. *)
Lemma coherence_enough (data : ndarray R) (sr : R) (n : Z) (imag : bool)
  (nt ns nn nm : nat) :
  shape data = [nt; ns; nn; nm] -> (0 < n <= Z.of_nat nt)%Z ->
  (sr = 0%R /\
   coherence data sr n imag =
   Run [KSegment; KWindow; KFFT] (inl (ZeroDivisionError "float division by zero"))) \/
  (sr <> 0%R /\ nn = 0%nat /\
   (coherence data sr n imag =
    Run [KSegment; KWindow; KFFT; KFFTFreq; KCrossPower; KNormalise]
        (inl (IndexError "boolean index did not match indexed array")) \/
    coherence data sr n imag =
    Run [KSegment; KWindow; KFFT; KFFTFreq; KCrossPower; KNormalise]
        (inl (ValueError "operands could not be broadcast together")))) \/
  (sr <> 0%R /\ (0 < nn)%nat /\
   exists fs,
     fftfreq n (1e3 / sr) = ret fs /\
     coherence data sr n imag =
     Run [KSegment; KWindow; KFFT; KFFTFreq; KCrossPower; KNormalise]
         (inr (NdArray [List.length (selected (map positive fs)); nn; nn; ns; nm]
                 (fun ix => match ix with
                            | [f; i; j; s; m] =>
                                segment_mean (Z.to_nat (Z.of_nat nt / n))
                                  (ratio (cross_power (spectra data n) imag)) i j s m
                                  (nth f (selected (map positive fs)) 0%nat)
                            | _ => None
                            end),
               take_mask 0%R fs (map positive fs)))).
Proof.
  intros Hsh Hn.
  assert (Hwin : (1 <= Z.of_nat nt / n)%Z).
  { apply Z.div_le_lower_bound; lia. }
  unfold coherence.
  rewrite Hsh, unpack4_four, bind_ret, py_div_nonzero, bind_ret by lia.
  destruct (Z.ltb_spec (Z.of_nat nt / n) 1); [lia |].
  rewrite !bind_tick.
  destruct (Req_dec_T sr 0) as [Hz | Hnz].
  - left. split; [assumption |]. subst sr.
    unfold py_fdiv. destruct (Req_dec_T 0 0); [| contradiction]. reflexivity.
  - right.
    rewrite py_fdiv_nonzero, bind_ret, bind_tick by assumption.
    assert (Hd : (IZR n * (1e3 / sr))%R <> 0%R).
    { apply Rmult_integral_contrapositive_currified.
      - apply not_0_IZR; lia.
      - unfold Rdiv. apply Rmult_integral_contrapositive_currified; [lra |].
        now apply Rinv_neq_0_compat. }
    assert (Hf : exists fs, fftfreq n (1e3 / sr) = ret fs).
    { unfold fftfreq. rewrite py_fdiv_nonzero, bind_ret by assumption.
      eexists. reflexivity. }
    destruct Hf as [fs Hf]. rewrite Hf, bind_ret, !bind_tick.
    unfold broadcast_divisor.
    destruct (Nat.eqb_spec nn 0) as [Hz | Hnn].
    + left. split; [assumption |]. split; [assumption |].
      destruct ((Z.of_nat nt / n =? 1) && (n =? 1))%Z; [left | right]; reflexivity.
    + right. split; [assumption |]. split; [lia |].
      exists fs. split; [reflexivity |]. rewrite bind_ret. reflexivity.
Qed.

(** C2.  For a 4-D series and a nonzero [nfft], when floor(nt / nfft) < 1
    coherence raises the error whose message reports the number of time
    points and [nfft], and no numerical kernel has run (no segmenting,
    window or FFT); for a positive [nfft] that condition is [nt < nfft]; and
    with at least [nfft] samples that error is not raised. *)
Theorem coherence_insufficient_data (data : ndarray R) (sr : R) (n : Z) (imag : bool)
  (nt ns nn nm : nat) :
  shape data = [nt; ns; nn; nm] -> n <> 0%Z ->
  ((Z.of_nat nt / n < 1)%Z ->
   coherence data sr n imag =
   Run [] (inl (ValueError
                  ("Not enough time points (" ++ str (Z.of_nat nt) ++
                   ") to compute an FFT, given a window size of nfft=" ++ str n ++ ".")))) /\
  ((0 < n)%Z -> ((Z.of_nat nt / n < 1)%Z <-> (Z.of_nat nt < n)%Z)) /\
  ((0 < n <= Z.of_nat nt)%Z ->
   forall nt' n',
     outcome (coherence data sr n imag) <>
     inl (ValueError (not_enough_time_points nt' n'))).
Proof.
  intros Hsh Hn. split; [| split].
  - intros Hlt. now apply coherence_unpacked with (ns := ns) (nn := nn) (nm := nm).
  - intros Hpos. split; intros H.
    + destruct (Z.lt_ge_cases (Z.of_nat nt) n) as [| Hge]; [assumption |].
      assert (1 <= Z.of_nat nt / n)%Z by (apply Z.div_le_lower_bound; lia). lia.
    + rewrite Z.div_small by lia. lia.
  - intros Hok nt' n'.
    destruct (coherence_enough data sr imag Hsh Hok)
      as [[_ ->] | [[_ [_ [-> | ->]]] | [_ [_ [fs [_ ->]]]]]];
      cbn [outcome]; discriminate.
Qed.

(** Three samples cannot fill a segment of four. *)
Lemma coherence_insufficient_data_witness :
  coherence (NdArray [3; 1; 2; 1]%nat (fun _ => 0%R)) 1000 4 false =
  Run [] (inl (ValueError
    "Not enough time points (3) to compute an FFT, given a window size of nfft=4.")).
Proof.
  refine (proj1 (@coherence_insufficient_data (NdArray [3; 1; 2; 1]%nat (fun _ => 0%R))
                   1000 4 false 3 1 2 1 eq_refl _) _).
  - discriminate.
  - reflexivity.
Defined.

(** C8, as the code has it.  There is no validation step and no error kind
    of its own for a wrong shape or a wrong [nfft]: an array that is not 4-D
    fails the unpacking of its shape, [nfft = 0] fails the integer division
    and a negative [nfft] takes the not-enough-time-points branch.  Each of
    these exceptions is raised before any numerical kernel has run. *)
Theorem coherence_eager_errors (data : ndarray R) (sr : R) (n : Z) (imag : bool) :
  (List.length (shape data) <> 4%nat ->
   exists msg, coherence data sr n imag = Run [] (inl (ValueError msg)) /\
               unpack_message msg = true) /\
  (forall nt ns nn nm, shape data = [nt; ns; nn; nm] ->
     (n = 0%Z ->
      coherence data sr n imag =
      Run [] (inl (ZeroDivisionError "integer division or modulo by zero"))) /\
     ((n < 0)%Z ->
      coherence data sr n imag =
      Run [] (inl (ValueError (not_enough_time_points nt n))))).
Proof.
  split.
  - intros H. destruct (unpack4_not_four (shape data) H) as [msg [Hu Hm]].
    exists msg. split; [| assumption].
    unfold coherence. rewrite Hu. reflexivity.
  - intros nt ns nn nm Hsh. split.
    + intros ->. unfold coherence. rewrite Hsh, unpack4_four, bind_ret. reflexivity.
    + intros Hneg. apply coherence_unpacked with (ns := ns) (nn := nn) (nm := nm);
        [assumption | lia |].
      assert (Z.of_nat nt / n <= 0)%Z; [| lia].
      rewrite <- Z.div_opp_opp by lia. apply Z.div_le_upper_bound; lia.
Qed.

(** A 3-D array, then a 4-D array with [nfft = 0] and with [nfft = -3]. *)
Lemma coherence_eager_errors_witness :
  (exists msg, coherence (NdArray [8; 2; 1]%nat (fun _ => 0%R)) 1000 4 false =
               Run [] (inl (ValueError msg)) /\ unpack_message msg = true) /\
  coherence (NdArray [8; 1; 2; 1]%nat (fun _ => 0%R)) 1000 0 false =
  Run [] (inl (ZeroDivisionError "integer division or modulo by zero")) /\
  coherence (NdArray [8; 1; 2; 1]%nat (fun _ => 0%R)) 1000 (-3) false =
  Run [] (inl (ValueError (not_enough_time_points 8 (-3)))).
Proof.
  split; [| split].
  - apply (proj1 (coherence_eager_errors (NdArray [8; 2; 1]%nat (fun _ => 0%R)) 1000 4 false)).
    simpl. lia.
  - apply (proj2 (coherence_eager_errors (NdArray [8; 1; 2; 1]%nat (fun _ => 0%R)) 1000 0 false)
             8 1 2 1 eq_refl)%nat.
    reflexivity.
  - apply (proj2 (coherence_eager_errors (NdArray [8; 1; 2; 1]%nat (fun _ => 0%R)) 1000 (-3) false)
             8 1 2 1 eq_refl)%nat.
    lia.
Defined.

(** C8 as stated fails.  With a 4-D series, [nfft = -3] raises the very
    error of too short a series and [nfft = 0] a ZeroDivisionError; neither
    is an error about the shape of the input. *)
Lemma nonpositive_nfft_is_no_shape_error :
  coherence (NdArray [8; 1; 2; 1]%nat (fun _ => 0%R)) 1000 (-3) false =
  Run [] (inl (ValueError
    "Not enough time points (8) to compute an FFT, given a window size of nfft=-3.")) /\
  unpack_message
    "Not enough time points (8) to compute an FFT, given a window size of nfft=-3." = false /\
  coherence (NdArray [8; 1; 2; 1]%nat (fun _ => 0%R)) 1000 0 false =
  Run [] (inl (ZeroDivisionError "integer division or modulo by zero")) /\
  ~ (forall (data : ndarray R) (n : Z),
       (List.length (shape data) <> 4%nat \/ (n <= 0)%Z) ->
       exists msg, coherence data 1000 n false = Run [] (inl (ValueError msg)) /\
                   unpack_message msg = true).
Proof.
  assert (H3 : coherence (NdArray [8; 1; 2; 1]%nat (fun _ => 0%R)) 1000 (-3) false =
               Run [] (inl (ValueError
    "Not enough time points (8) to compute an FFT, given a window size of nfft=-3."))).
  { exact (@coherence_unpacked (NdArray [8; 1; 2; 1]%nat (fun _ => 0%R)) 1000 (-3) false
             8 1 2 1 eq_refl ltac:(discriminate) eq_refl). }
  split; [exact H3 |]. split; [reflexivity |]. split; [reflexivity |].
  intros H.
  destruct (H (NdArray [8; 1; 2; 1]%nat (fun _ => 0%R)) (-3)%Z) as [msg [Hc Hm]];
    [right; lia |].
  rewrite H3 in Hc. inversion Hc; subst msg. discriminate Hm.
Qed.

(** ** The shape and size queries *)







(** ** The frequency bins kept by the mask *)

Lemma filter_all {A} (p : A -> bool) (l : list A) :
  (forall x, In x l -> p x = true) -> filter p l = l.
Proof.
  induction l as [| a l IH]; intros H; simpl; [reflexivity |].
  rewrite (H a (or_introl eq_refl)), IH; [reflexivity |].
  intros x Hx. apply H. now right.
Qed.

Lemma filter_none {A} (p : A -> bool) (l : list A) :
  (forall x, In x l -> p x = false) -> filter p l = [].
Proof.
  induction l as [| a l IH]; intros H; simpl; [reflexivity |].
  rewrite (H a (or_introl eq_refl)). apply IH.
  intros x Hx. apply H. now right.
Qed.

(** A predicate true exactly on [1 .. K] keeps [seq 1 K] of [seq 0 n]. *)
Lemma filter_seq_interval (p : nat -> bool) (n K : nat) :
  (K < n)%nat ->
  (forall k, (k < n)%nat -> p k = true <-> (1 <= k <= K)%nat) ->
  filter p (seq 0 n) = seq 1 K.
Proof.
  intros HK Hp.
  replace n with (1 + (K + (n - 1 - K)))%nat by lia.
  rewrite seq_app, (seq_app K), !filter_app.
  rewrite (filter_none p (seq 0 1)), (filter_all p (seq (0 + 1) K)),
          (filter_none p (seq (0 + 1 + K) (n - 1 - K))).
  - now rewrite app_nil_r.
  - intros x Hx. apply in_seq in Hx.
    destruct (p x) eqn:E; [| reflexivity]. apply Hp in E; lia.
  - intros x Hx. apply in_seq in Hx. apply Hp; lia.
  - intros x Hx. apply in_seq in Hx.
    destruct (p x) eqn:E; [| reflexivity]. apply Hp in E; lia.
Qed.

Lemma positive_scaled (r : Z) (v : R) :
  (0 < v)%R -> positive (IZR r * v) = (0 <? r)%Z.
Proof.
  intros Hv. unfold positive.
  destruct (Z.ltb_spec 0 r) as [Hr | Hr].
  - destruct (Rlt_dec 0 (IZR r * v)) as [| Hn]; [reflexivity |].
    exfalso. apply Hn. apply Rmult_lt_0_compat; [| assumption].
    now apply (IZR_lt 0).
  - destruct (Rlt_dec 0 (IZR r * v)) as [Hp |]; [| reflexivity].
    exfalso. apply (IZR_le r 0) in Hr. nra.
Qed.

(** The two halves of the table of fftfreq have [n] entries together. *)
Lemma fftfreq_halves (n : Z) : ((n - 1) / 2 + 1 + n / 2 = n)%Z.
Proof.
  pose proof (Z.div_mod n 2 ltac:(lia)) as Hd.
  pose proof (Z.mod_pos_bound n 2 ltac:(lia)) as Hm.
  pose proof (Z.div_mod (n - 1) 2 ltac:(lia)) as Hd'.
  pose proof (Z.mod_pos_bound (n - 1) 2 ltac:(lia)) as Hm'.
  lia.
Qed.

(** The integer table of fftfreq: [0, 1, ..., (n-1)/2, -(n/2), ..., -1]. *)
Lemma fftfreq_table_nth (n : Z) (k : nat) :
  (1 <= n)%Z -> (Z.of_nat k < n)%Z ->
  nth k (arange 0 ((n - 1) / 2 + 1) ++ arange (- (n / 2)) 0) 0%Z =
  if (Z.of_nat k <=? (n - 1) / 2)%Z then Z.of_nat k else (Z.of_nat k - n)%Z.
Proof.
  intros Hn Hk.
  pose proof (fftfreq_halves n) as Hhalf.
  assert (Hpos : (0 <= (n - 1) / 2)%Z) by (apply Z.div_pos; lia).
  destruct (Z.leb_spec (Z.of_nat k) ((n - 1) / 2)) as [Hle | Hgt].
  - rewrite app_nth1 by (rewrite arange_length; lia).
    rewrite arange_nth by lia. lia.
  - rewrite app_nth2 by (rewrite arange_length; lia).
    rewrite arange_length, arange_nth by lia. lia.
Qed.

Lemma fftfreq_table_length (n : Z) :
  (1 <= n)%Z ->
  List.length (arange 0 ((n - 1) / 2 + 1) ++ arange (- (n / 2)) 0) = Z.to_nat n.
Proof.
  intros Hn. rewrite length_app, !arange_length.
  assert (Hpos : (0 <= (n - 1) / 2)%Z) by (apply Z.div_pos; lia).
  assert (Hpos' : (0 <= n / 2)%Z) by (apply Z.div_pos; lia).
  pose proof (fftfreq_halves n) as Hhalf.
  lia.
Qed.

(** With a positive sample rate the mask [fs > 0.0] keeps the bins
    [1 .. (nfft - 1) / 2] and nothing else. *)
Lemma fftfreq_positive_bins (n : Z) (sr : R) (fs : list R) :
  (1 <= n)%Z -> (0 < sr)%R ->
  fftfreq n (1e3 / sr) = ret fs ->
  selected (map positive fs) = seq 1 (Z.to_nat ((n - 1) / 2)).
Proof.
  intros Hn Hsr Hfs.
  assert (Hd : (0 < IZR n * (1e3 / sr))%R).
  { apply Rmult_lt_0_compat; [apply (IZR_lt 0); lia |].
    apply Rdiv_lt_0_compat; lra. }
  unfold fftfreq in Hfs.
  rewrite py_fdiv_nonzero, bind_ret in Hfs by lra.
  injection Hfs as Hfs. subst fs.
  set (v := (1 / (IZR n * (1e3 / sr)))%R).
  assert (Hv : (0 < v)%R) by (apply Rdiv_lt_0_compat; lra).
  set (tbl := arange 0 ((n - 1) / 2 + 1) ++ arange (- (n / 2)) 0).
  assert (Hlen : List.length tbl = Z.to_nat n) by now apply fftfreq_table_length.
  assert (Hpos : (0 <= (n - 1) / 2)%Z) by (apply Z.div_pos; lia).
  assert (Hlt : ((n - 1) / 2 < n)%Z) by (apply Z.div_lt_upper_bound; lia).
  unfold selected. rewrite !length_map, Hlen.
  apply filter_seq_interval; [lia |].
  intros k Hk.
  rewrite nth_indep with (d' := positive (IZR 0 * v)) by (rewrite !length_map; lia).
  rewrite map_map, map_nth with (f := fun r => positive (IZR r * v)).
  rewrite positive_scaled by assumption.
  unfold tbl. rewrite fftfreq_table_nth by lia.
  destruct (Z.leb_spec (Z.of_nat k) ((n - 1) / 2)); rewrite Z.ltb_lt; lia.
Qed.

(** The result of coherence on a valid call: a 4-D series with at least one
    node, a segment length between 1 and the number of samples, a positive
    sample rate. *)
Lemma coherence_valid (data : ndarray R) (sr : R) (n : Z) (imag : bool)
  (nt ns nn nm : nat) :
  shape data = [nt; ns; nn; nm] -> (0 < nn)%nat ->
  (0 < n <= Z.of_nat nt)%Z -> (0 < sr)%R ->
  exists fs,
    List.length fs = Z.to_nat ((n - 1) / 2) /\
    coherence data sr n imag =
    Run [KSegment; KWindow; KFFT; KFFTFreq; KCrossPower; KNormalise]
        (inr (NdArray [Z.to_nat ((n - 1) / 2); nn; nn; ns; nm]
                (fun ix => match ix with
                           | [f; i; j; s; m] =>
                               segment_mean (Z.to_nat (Z.of_nat nt / n))
                                 (ratio (cross_power (spectra data n) imag)) i j s m
                                 (nth f (seq 1 (Z.to_nat ((n - 1) / 2))) 0%nat)
                           | _ => None
                           end),
              fs)).
Proof.
  intros Hsh Hnn Hn Hsr.
  destruct (coherence_enough data sr imag Hsh Hn)
    as [[Hz _] | [[_ [Hz _]] | [_ [_ [fs [Hfs Hc]]]]]]; [lra | lia |].
  pose proof (@fftfreq_positive_bins n sr fs ltac:(lia) Hsr Hfs) as Hbins.
  rewrite Hbins in Hc. rewrite length_seq in Hc.
  exists (take_mask 0%R fs (map positive fs)). split; [| exact Hc].
  unfold take_mask. now rewrite length_map, Hbins, length_seq.
Qed.

(** ** Algebra of the normalised cross power *)

Lemma Cnorm2_nonneg (z : complex) : (0 <= Cnorm2 z)%R.
Proof. unfold Cnorm2. nra. Qed.

Lemma Cabs_sqr (z : complex) : (Cabs z ^ 2)%R = Cnorm2 z.
Proof. unfold Cabs. apply pow2_sqrt. apply Cnorm2_nonneg. Qed.

Lemma Cnorm2_zero (z : complex) : Cnorm2 z = 0%R <-> z = C0.
Proof.
  destruct z as [a b]. unfold Cnorm2, C0; simpl. split.
  - intros H. assert (a = 0%R) by nra. assert (b = 0%R) by nra. now subst.
  - intros H. inversion H. ring.
Qed.

Lemma Cnorm2_mul (a b : complex) : Cnorm2 (Cmul a b) = (Cnorm2 a * Cnorm2 b)%R.
Proof. unfold Cnorm2, Cmul; simpl. ring. Qed.

Lemma Cnorm2_conj (a : complex) : Cnorm2 (Cconj a) = Cnorm2 a.
Proof. unfold Cnorm2, Cconj; simpl. ring. Qed.


Section CrossPower.

Variable F : nat -> nat -> nat -> nat -> nat -> complex.

(** The autopower [G[i, i]] is [|F_i|^2], and zero when only the
    imaginary part is kept. *)
Lemma cross_power_diag (imag : bool) (i s m w k : nat) :
  cross_power F imag i i s m w k =
  if imag then C0 else Cx (Cnorm2 (F i s m w k)) 0.
Proof.
  unfold cross_power, Cmul, Cconj, Cnorm2, C0; simpl.
  destruct imag; f_equal; ring.
Qed.

Lemma cross_power_norm2 (i j s m w k : nat) :
  Cnorm2 (cross_power F false i j s m w k) =
  (Cnorm2 (F i s m w k) * Cnorm2 (F j s m w k))%R.
Proof. unfold cross_power. now rewrite Cnorm2_mul, Cnorm2_conj. Qed.


(** |F_i conj(F_j)|^2 = |F_i|^2 |F_j|^2: the ratio of one segment is 1
    as soon as both autopowers are nonzero. *)
Lemma ratio_one (i j s m w k : nat) :
  F i s m w k <> C0 -> F j s m w k <> C0 ->
  ratio (cross_power F false) i j s m w k = Some C1.
Proof.
  intros Hi Hj. unfold ratio.
  rewrite Cabs_sqr, cross_power_norm2, !cross_power_diag.
  assert (Hni : Cnorm2 (F i s m w k) <> 0%R) by (now rewrite Cnorm2_zero).
  assert (Hnj : Cnorm2 (F j s m w k) <> 0%R) by (now rewrite Cnorm2_zero).
  set (a := Cnorm2 (F i s m w k)) in *. set (b := Cnorm2 (F j s m w k)) in *.
  unfold Cdiv.
  destruct (complex_eq_dec (Cmul (Cx a 0) (Cx b 0)) C0) as [Hz | Hnz].
  - exfalso. unfold Cmul, C0 in Hz; simpl in Hz. inversion Hz as [[Hre Him]].
    assert (a * b = 0)%R by lra.
    destruct (Rmult_integral _ _ H); contradiction.
  - unfold C1, Cmul, Cnorm2; simpl. do 2 f_equal; field; nra.
Qed.

(** A vanishing autopower makes the ratio non-finite. *)
Lemma ratio_zero_power (i j s m w k : nat) :
  F i s m w k = C0 \/ F j s m w k = C0 ->
  ratio (cross_power F false) i j s m w k = None.
Proof.
  intros H. unfold ratio. rewrite !cross_power_diag. unfold Cdiv.
  destruct (complex_eq_dec _ C0) as [| Hnz]; [reflexivity |].
  exfalso. apply Hnz.
  destruct H as [H | H]; rewrite H; unfold Cmul, Cnorm2, C0; simpl; f_equal; ring.
Qed.

(** With [imag] set the divisor is identically zero. *)
Lemma ratio_imag (i j s m w k : nat) :
  ratio (cross_power F true) i j s m w k = None.
Proof.
  unfold ratio. rewrite !cross_power_diag. unfold Cdiv.
  destruct (complex_eq_dec _ C0) as [| Hnz]; [reflexivity |].
  exfalso. apply Hnz. unfold Cmul, C0; simpl; f_equal; ring.
Qed.



End CrossPower.

(** ** Means *)

Lemma sequence_opt_const {A B} (c : B) (l : list A) :
  sequence_opt (map (fun _ => Some c) l) = Some (map (fun _ => c) l).
Proof. induction l as [| a l IH]; simpl; [reflexivity | now rewrite IH]. Qed.

Lemma Csum_ones {A} (l : list A) :
  Csum (map (fun _ => C1) l) = Cx (INR (List.length l)) 0.
Proof.
  induction l as [| a l IH]; [reflexivity |].
  change (Csum (map (fun _ => C1) (a :: l))) with (Cadd C1 (Csum (map (fun _ => C1) l))).
  rewrite IH. change (List.length (a :: l)) with (S (List.length l)).
  rewrite S_INR. unfold Cadd, C1; simpl. f_equal; ring.
Qed.

Lemma Cmean_ones {A} (f : A -> option complex) (l : list A) :
  l <> [] -> (forall x, In x l -> f x = Some C1) -> Cmean (map f l) = Some C1.
Proof.
  intros Hne Hf.
  rewrite (map_ext_in f (fun _ => Some C1)) by assumption.
  unfold Cmean. rewrite sequence_opt_const, length_map.
  assert (Hlen : List.length l <> 0%nat) by (destruct l; [contradiction | discriminate]).
  destruct (Nat.eqb_spec (List.length l) 0) as [| _]; [contradiction |].
  rewrite Csum_ones.
  assert (INR (List.length l) <> 0%R) by now apply not_0_INR.
  unfold Cscale, C1; cbn [Re Im]. f_equal. f_equal; field; assumption.
Qed.

Lemma sequence_opt_none {A} (l : list (option A)) :
  In None l -> sequence_opt l = None.
Proof.
  induction l as [| [a |] l IH]; simpl; intros H.
  - contradiction.
  - destruct H as [H | H]; [discriminate |]. now rewrite IH.
  - reflexivity.
Qed.

Lemma Cmean_none {A} (f : A -> option complex) (l : list A) (x : A) :
  In x l -> f x = None -> Cmean (map f l) = None.
Proof.
  intros Hx Hf. unfold Cmean. rewrite sequence_opt_none; [reflexivity |].
  rewrite <- Hf. now apply in_map.
Qed.

Lemma ratio_one_or_none (F : nat -> nat -> nat -> nat -> nat -> complex) (imag : bool)
  (i j s m w k : nat) :
  ratio (cross_power F imag) i j s m w k = Some C1 \/
  ratio (cross_power F imag) i j s m w k = None.
Proof.
  destruct imag; [right; apply ratio_imag |].
  destruct (complex_eq_dec (F i s m w k) C0) as [Hi | Hi];
    [right; apply ratio_zero_power; now left |].
  destruct (complex_eq_dec (F j s m w k) C0) as [Hj | Hj];
    [right; apply ratio_zero_power; now right |].
  left. now apply ratio_one.
Qed.

Lemma Cmean_one_or_none {A} (f : A -> option complex) (l : list A) :
  (forall x, In x l -> f x = Some C1 \/ f x = None) ->
  Cmean (map f l) = Some C1 \/ Cmean (map f l) = None.
Proof.
  intros H.
  assert (Hall : (forall x, In x l -> f x = Some C1) \/ (exists x, In x l /\ f x = None)).
  { induction l as [| a l IH]; [left; intros x [] |].
    destruct (H a (or_introl eq_refl)) as [Ha | Ha].
    - destruct IH as [IH | [x [Hx Hf]]].
      + intros x Hx. apply H. now right.
      + left. intros x [<- | Hx]; [assumption | now apply IH].
      + right. exists x. split; [now right | assumption].
    - right. exists a. split; [now left | assumption]. }
  destruct Hall as [Hall | [x [Hx Hf]]].
  - destruct l as [| a l]; [right; reflexivity |].
    left. apply Cmean_ones; [discriminate | assumption].
  - right. now apply Cmean_none with (x := x).
Qed.

(** ** Spectra of the two small series *)

Lemma Csum_zeros {A} (f : A -> complex) (l : list A) :
  (forall x, In x l -> f x = C0) -> Csum (map f l) = C0.
Proof.
  induction l as [| a l IH]; intros H; [reflexivity |].
  change (Csum (map f (a :: l))) with (Cadd (f a) (Csum (map f l))).
  rewrite (H a (or_introl eq_refl)), IH by (intros x Hx; apply H; now right).
  unfold Cadd, C0; simpl. f_equal; ring.
Qed.

Lemma fft_zero (N : nat) (x : nat -> R) (k : nat) :
  (forall t, (t < N)%nat -> x t = 0%R) -> fft N x k = C0.
Proof.
  intros H. unfold fft. apply Csum_zeros.
  intros t Ht. apply in_seq in Ht. rewrite H by lia.
  unfold Cscale, C0. f_equal; ring.
Qed.

(** A sequence that vanishes after its first sample has a flat spectrum. *)
Lemma fft_impulse (N : nat) (x : nat -> R) (k : nat) :
  (1 <= N)%nat -> (forall t, (1 <= t < N)%nat -> x t = 0%R) ->
  fft N x k = Cx (x 0%nat) 0.
Proof.
  intros HN H. unfold fft.
  replace N with (1 + (N - 1))%nat by lia.
  rewrite seq_app, map_app.
  change (seq 0 1) with [0%nat].
  change (Csum (map (fun t => Cscale (x t) (twiddle (1 + (N - 1)) k t)) [0%nat] ++
                map (fun t => Cscale (x t) (twiddle (1 + (N - 1)) k t)) (seq (0 + 1) (N - 1))))
    with (Cadd (Cscale (x 0%nat) (twiddle (1 + (N - 1)) k 0))
               (Csum (map (fun t => Cscale (x t) (twiddle (1 + (N - 1)) k t))
                          (seq (0 + 1) (N - 1))))).
  rewrite Csum_zeros.
  - unfold twiddle. change (INR 0) with 0%R.
    replace (2 * PI * INR k * 0 / INR (1 + (N - 1)))%R with 0%R
      by (unfold Rdiv; ring).
    rewrite cos_0, sin_0. unfold Cadd, Cscale, C0; simpl. f_equal; ring.
  - intros t Ht. apply in_seq in Ht. rewrite H by lia.
    unfold Cscale, C0. f_equal; ring.
Qed.

Lemma spectra_zero_series (i s m w k : nat) : spectra zero_series 4 i s m w k = C0.
Proof.
  unfold spectra. apply fft_zero. intros t _.
  unfold taper, segments, zero_series; simpl. ring.
Qed.

Lemma spectra_impulse_series (i s m w k : nat) :
  spectra impulse_series 4 i s m w k = Cx (INR (S i) * 0.08) 0.
Proof.
  unfold spectra.
  change (Z.to_nat 4) with 4%nat.
  rewrite fft_impulse.
  - f_equal. unfold taper, segments, impulse_series. cbn [item].
    rewrite Nat.add_0_r, Nat.Div0.mod_mul. cbn [Nat.eqb].
    rewrite (@hamming_sym_nth 4 0) by (simpl; lia).
    change (INR 0) with 0%R.
    replace (2 * PI * 0 / IZR (4 - 1))%R with 0%R by (unfold Rdiv; ring).
    rewrite cos_0. lra.
  - lia.
  - intros t Ht. unfold taper, segments, impulse_series. cbn [item].
    rewrite Nat.add_comm, Nat.Div0.mod_add.
    replace (t mod 4)%nat with t by (symmetry; apply Nat.mod_small; lia).
    destruct (Nat.eqb_spec t 0); [lia |]. ring.
Qed.

Lemma spectra_impulse_series_nonzero (i s m w k : nat) :
  spectra impulse_series 4 i s m w k <> C0.
Proof.
  rewrite spectra_impulse_series. intros H.
  apply (f_equal Re) in H. unfold C0 in H. cbn [Re] in H.
  pose proof (pos_INR i). rewrite S_INR in H. lra.
Qed.

(** ** The coherence array *)

Lemma bin_of_index (K f : nat) : (f < K)%nat -> nth f (seq 1 K) 0%nat = S f.
Proof. intros H. now rewrite seq_nth. Qed.

Lemma segments_nonempty (nt : nat) (n : Z) :
  (0 < n <= Z.of_nat nt)%Z -> seq 0 (Z.to_nat (Z.of_nat nt / n)) <> [].
Proof.
  intros H.
  assert (1 <= Z.of_nat nt / n)%Z by (apply Z.div_le_lower_bound; lia).
  destruct (Z.to_nat (Z.of_nat nt / n)) eqn:E; [lia | discriminate].
Qed.

(** C1, as the code has it.  On a valid call with [imag] false, the diagonal
    entry at frequency bin [f], node [i], state variable [s] and mode [m] is
    exactly 1 provided the spectrum of node [i] at that bin is nonzero in
    every segment; nothing guards the quotient against a zero autopower. *)
Theorem coherence_self_is_one (data : ndarray R) (sr : R) (n : Z)
  (nt ns nn nm : nat) (f i s m : nat) :
  shape data = [nt; ns; nn; nm] -> (0 < nn)%nat ->
  (0 < n <= Z.of_nat nt)%Z -> (0 < sr)%R ->
  (f < Z.to_nat ((n - 1) / 2))%nat ->
  (forall w, (w < Z.to_nat (Z.of_nat nt / n))%nat -> spectra data n i s m w (S f) <> C0) ->
  exists arr fs,
    coherence data sr n false =
    Run [KSegment; KWindow; KFFT; KFFTFreq; KCrossPower; KNormalise] (inr (arr, fs)) /\
    item arr [f; i; i; s; m] = Some C1.
Proof.
  intros Hsh Hnn Hn Hsr Hf Hpow.
  destruct (coherence_valid data false Hsh Hnn Hn Hsr) as [fs [_ Hc]].
  eexists. exists fs. split; [exact Hc |].
  cbn [item]. rewrite bin_of_index by assumption.
  unfold segment_mean. apply Cmean_ones; [now apply segments_nonempty |].
  intros w Hw. apply in_seq in Hw. apply ratio_one; apply Hpow; lia.
Qed.

(** Node 1 of the impulse series, frequency bin 0. *)
Lemma coherence_self_is_one_witness :
  exists arr fs,
    coherence impulse_series 1000 4 false =
    Run [KSegment; KWindow; KFFT; KFFTFreq; KCrossPower; KNormalise] (inr (arr, fs)) /\
    item arr [0; 1; 1; 0; 0]%nat = Some C1.
Proof.
  apply (@coherence_self_is_one impulse_series 1000 4 8 1 2 1 0 1 0 0 eq_refl).
  - lia.
  - simpl; lia.
  - lra.
  - simpl; lia.
  - intros w _. apply spectra_impulse_series_nonzero.
Defined.

(** C1 as stated fails: the identically zero series is a valid input, its
    autopowers vanish and the diagonal entry is 0/0, not 1. *)
Lemma zero_series_self_coherence_is_not_one :
  exists arr fs,
    coherence zero_series 1000 4 false =
    Run [KSegment; KWindow; KFFT; KFFTFreq; KCrossPower; KNormalise] (inr (arr, fs)) /\
    shape arr = [1; 2; 2; 1; 1]%nat /\
    item arr [0; 0; 0; 0; 0]%nat = None /\
    item arr [0; 0; 0; 0; 0]%nat <> Some C1.
Proof.
  destruct (@coherence_valid zero_series 1000 4 false 8 1 2 1 eq_refl
              ltac:(lia) ltac:(simpl; lia) ltac:(lra)) as [fs [_ Hc]].
  eexists. exists fs. split; [exact Hc |]. split; [reflexivity |].
  assert (Hnone : segment_mean (Z.to_nat (Z.of_nat 8 / 4))
                    (ratio (cross_power (spectra zero_series 4) false)) 0 0 0 0 1 = None).
  { unfold segment_mean. apply Cmean_none with (x := 0%nat); [simpl; tauto |].
    apply ratio_zero_power. left. apply spectra_zero_series. }
  cbn [item]. change (nth 0 (seq 1 (Z.to_nat ((4 - 1) / 2))) 0)%nat with 1%nat.
  rewrite Hnone. split; [reflexivity | discriminate].
Qed.

(** C4.  On a valid call with [imag] false, if the spectrum of every node
    is nonzero in every segment at every kept frequency bin, then every
    per-segment ratio is 1 (|F_i conj(F_j)|^2 = |F_i|^2 |F_j|^2) and so every
    entry of the returned array, diagonal or not, is exactly 1. *)
Theorem coherence_all_ones (data : ndarray R) (sr : R) (n : Z) (nt ns nn nm : nat) :
  shape data = [nt; ns; nn; nm] -> (0 < nn)%nat ->
  (0 < n <= Z.of_nat nt)%Z -> (0 < sr)%R ->
  (forall i s m w k, (i < nn)%nat -> (s < ns)%nat -> (m < nm)%nat ->
     (w < Z.to_nat (Z.of_nat nt / n))%nat -> (1 <= k <= Z.to_nat ((n - 1) / 2))%nat ->
     spectra data n i s m w k <> C0) ->
  (forall i j s m w k, (i < nn)%nat -> (j < nn)%nat -> (s < ns)%nat -> (m < nm)%nat ->
     (w < Z.to_nat (Z.of_nat nt / n))%nat -> (1 <= k <= Z.to_nat ((n - 1) / 2))%nat ->
     (Cabs (cross_power (spectra data n) false i j s m w k) ^ 2)%R =
     (Cnorm2 (spectra data n i s m w k) * Cnorm2 (spectra data n j s m w k))%R /\
     ratio (cross_power (spectra data n) false) i j s m w k = Some C1) /\
  exists arr fs,
    coherence data sr n false =
    Run [KSegment; KWindow; KFFT; KFFTFreq; KCrossPower; KNormalise] (inr (arr, fs)) /\
    shape arr = [Z.to_nat ((n - 1) / 2); nn; nn; ns; nm] /\
    forall f i j s m, (f < Z.to_nat ((n - 1) / 2))%nat ->
      (i < nn)%nat -> (j < nn)%nat -> (s < ns)%nat -> (m < nm)%nat ->
      item arr [f; i; j; s; m] = Some C1.
Proof.
  intros Hsh Hnn Hn Hsr Hpow. split.
  - intros i j s m w k Hi Hj Hs Hm Hw Hk. split.
    + now rewrite Cabs_sqr, cross_power_norm2.
    + apply ratio_one; now apply Hpow.
  - destruct (coherence_valid data false Hsh Hnn Hn Hsr) as [fs [_ Hc]].
    eexists. exists fs. split; [exact Hc |]. split; [reflexivity |].
    intros f i j s m Hf Hi Hj Hs Hm.
    cbn [item]. rewrite bin_of_index by assumption.
    unfold segment_mean. apply Cmean_ones; [now apply segments_nonempty |].
    intros w Hw. apply in_seq in Hw. apply ratio_one; apply Hpow; lia.
Qed.

(** The impulse series: the entry between node 0 and node 1 is 1 although
    the two nodes differ. *)
Lemma coherence_all_ones_witness :
  exists arr fs,
    coherence impulse_series 1000 4 false =
    Run [KSegment; KWindow; KFFT; KFFTFreq; KCrossPower; KNormalise] (inr (arr, fs)) /\
    shape arr = [1; 2; 2; 1; 1]%nat /\
    item arr [0; 0; 1; 0; 0]%nat = Some C1.
Proof.
  destruct (@coherence_all_ones impulse_series 1000 4 8 1 2 1 eq_refl
              ltac:(lia) ltac:(simpl; lia) ltac:(lra)
              (fun i s m w k _ _ _ _ _ => @spectra_impulse_series_nonzero i s m w k))
    as [_ [arr [fs [Hc [Hsh Hall]]]]].
  exists arr, fs. split; [exact Hc |]. split; [exact Hsh |].
  apply Hall; simpl; lia.
Defined.



(** C6, as the code has it.  On a valid call every entry of the returned
    array is either non-finite or a real number of [0, 1] (it is then 1);
    with [imag] false an entry is finite, hence in [0, 1], as soon as the
    spectra of its two nodes are nonzero in every segment at its bin. *)
Theorem coherence_entries_bounded (data : ndarray R) (sr : R) (n : Z) (imag : bool)
  (nt ns nn nm : nat) :
  shape data = [nt; ns; nn; nm] -> (0 < nn)%nat ->
  (0 < n <= Z.of_nat nt)%Z -> (0 < sr)%R ->
  exists arr fs,
    coherence data sr n imag =
    Run [KSegment; KWindow; KFFT; KFFTFreq; KCrossPower; KNormalise] (inr (arr, fs)) /\
    (forall f i j s m,
       item arr [f; i; j; s; m] = None \/
       exists z, item arr [f; i; j; s; m] = Some z /\ (0 <= Re z <= 1)%R /\ Im z = 0%R) /\
    (imag = false ->
     forall f i j s m, (f < Z.to_nat ((n - 1) / 2))%nat ->
       (forall w, (w < Z.to_nat (Z.of_nat nt / n))%nat ->
          spectra data n i s m w (S f) <> C0 /\ spectra data n j s m w (S f) <> C0) ->
       exists z, item arr [f; i; j; s; m] = Some z /\ (0 <= Re z <= 1)%R /\ Im z = 0%R).
Proof.
  intros Hsh Hnn Hn Hsr.
  destruct (coherence_valid data imag Hsh Hnn Hn Hsr) as [fs [_ Hc]].
  eexists. exists fs. split; [exact Hc |]. split.
  - intros f i j s m. cbn [item]. unfold segment_mean.
    destruct (Cmean_one_or_none
                (fun w => ratio (cross_power (spectra data n) imag) i j s m w
                            (nth f (seq 1 (Z.to_nat ((n - 1) / 2))) 0%nat))
                (seq 0 (Z.to_nat (Z.of_nat nt / n)))) as [H1 | H0].
    + intros w _. apply ratio_one_or_none.
    + right. exists C1. split; [exact H1 |]. unfold C1; simpl. lra.
    + left. exact H0.
  - intros -> f i j s m Hf Hpow. exists C1. split; [| unfold C1; simpl; lra].
    cbn [item]. rewrite bin_of_index by assumption.
    unfold segment_mean. apply Cmean_ones; [now apply segments_nonempty |].
    intros w Hw. apply in_seq in Hw. apply ratio_one; apply Hpow; lia.
Qed.

Lemma coherence_entries_bounded_witness :
  exists arr fs,
    coherence impulse_series 1000 4 false =
    Run [KSegment; KWindow; KFFT; KFFTFreq; KCrossPower; KNormalise] (inr (arr, fs)) /\
    exists z, item arr [0; 0; 1; 0; 0]%nat = Some z /\ (0 <= Re z <= 1)%R /\ Im z = 0%R.
Proof.
  destruct (@coherence_entries_bounded impulse_series 1000 4 false 8 1 2 1 eq_refl
              ltac:(lia) ltac:(simpl; lia) ltac:(lra)) as [arr [fs [Hc [_ Hfin]]]].
  exists arr, fs. split; [exact Hc |].
  apply (Hfin eq_refl 0 0 1 0 0)%nat; [simpl; lia |].
  intros w _. split; apply spectra_impulse_series_nonzero.
Defined.

(** C6 as stated fails: the zero series with [imag] false, and the impulse
    series with [imag] set, give an entry that is not a number of [0, 1]. *)
Lemma coherence_entry_outside_unit_interval :
  (exists arr fs,
     coherence zero_series 1000 4 false =
     Run [KSegment; KWindow; KFFT; KFFTFreq; KCrossPower; KNormalise] (inr (arr, fs)) /\
     item arr [0; 0; 1; 0; 0]%nat = None /\
     ~ exists z, item arr [0; 0; 1; 0; 0]%nat = Some z /\ (0 <= Re z <= 1)%R) /\
  (exists arr fs,
     coherence impulse_series 1000 4 true =
     Run [KSegment; KWindow; KFFT; KFFTFreq; KCrossPower; KNormalise] (inr (arr, fs)) /\
     item arr [0; 0; 1; 0; 0]%nat = None /\
     ~ exists z, item arr [0; 0; 1; 0; 0]%nat = Some z /\ (0 <= Re z <= 1)%R).
Proof.
  split.
  - destruct (@coherence_valid zero_series 1000 4 false 8 1 2 1 eq_refl
                ltac:(lia) ltac:(simpl; lia) ltac:(lra)) as [fs [_ Hc]].
    eexists. exists fs. split; [exact Hc |].
    assert (Hnone : segment_mean (Z.to_nat (Z.of_nat 8 / 4))
                      (ratio (cross_power (spectra zero_series 4) false)) 0 1 0 0 1 = None).
    { unfold segment_mean. apply Cmean_none with (x := 0%nat); [simpl; tauto |].
      apply ratio_zero_power. left. apply spectra_zero_series. }
    cbn [item]. change (nth 0 (seq 1 (Z.to_nat ((4 - 1) / 2))) 0)%nat with 1%nat.
    rewrite Hnone. split; [reflexivity |]. intros [z [Hz _]]. discriminate Hz.
  - destruct (@coherence_valid impulse_series 1000 4 true 8 1 2 1 eq_refl
                ltac:(lia) ltac:(simpl; lia) ltac:(lra)) as [fs [_ Hc]].
    eexists. exists fs. split; [exact Hc |].
    assert (Hnone : segment_mean (Z.to_nat (Z.of_nat 8 / 4))
                      (ratio (cross_power (spectra impulse_series 4) true)) 0 1 0 0 1 = None).
    { unfold segment_mean. apply Cmean_none with (x := 0%nat); [simpl; tauto |].
      apply ratio_imag. }
    cbn [item]. change (nth 0 (seq 1 (Z.to_nat ((4 - 1) / 2))) 0)%nat with 1%nat.
    rewrite Hnone. split; [reflexivity |]. intros [z [Hz _]]. discriminate Hz.
Qed.

(** ** The shape query against the computation *)

Lemma frequency_bins_never_agree (n : Z) :
  (1 <= n)%Z -> ((n - 1) / 2 < n / 2 + 1)%Z.
Proof.
  intros H.
  assert ((n - 1) / 2 <= n / 2)%Z by (apply Z.div_le_mono; lia). lia.
Qed.

(** C3 at nfft = 256 on a series of shape (1024, 1, 4, 1): evaluate returns
    an array of shape (127, 4, 4, 1, 1) and 127 frequencies, while
    result_shape announces (129, 4, 4, 1, 1) and (129,). *)
Theorem result_shape_overstates_frequency_bins (values : list nat -> R) :
  let self := {| time_series := {| ts_data := NdArray [1024; 1; 4; 1]%nat values;
                                   sample_rate := 1000 |};
                 nfft := 256 |} in
  (exists spec,
     evaluate self =
     Run [KSegment; KWindow; KFFT; KFFTFreq; KCrossPower; KNormalise] (inr spec) /\
     shape (array_data spec) = [127; 4; 4; 1; 1]%nat /\
     List.length (frequency spec) = 127%nat) /\
  result_shape self [1024; 1; 4; 1]%Z = Run [] (inr [[129; 4; 4; 1; 1]; [129]]%Z).
Proof.
  intros self. split; [| reflexivity].
  destruct (@coherence_valid (NdArray [1024; 1; 4; 1]%nat values) 1000 256 false
              1024 1 4 1 eq_refl ltac:(lia) ltac:(simpl; lia) ltac:(lra)) as [fs [Hlen Hc]].
  unfold evaluate, self. cbn [time_series ts_data sample_rate nfft].
  rewrite Hc. eexists. split; [reflexivity |]. split; [reflexivity | exact Hlen].
Qed.

(** ** The loops of coherence_mlab *)

(** A loop whose body always returns is a fold of its state updates. *)
Lemma for_each_fold {S} (l : list nat) (body : nat -> S -> run S)
  (tr : nat -> list kernel) (g : S -> nat -> S) (s : S) :
  (forall i s', In i l -> body i s' = Run (tr i) (inr (g s' i))) ->
  for_each l body s = Run (flat_map tr l) (inr (fold_left g l s)).
Proof.
  revert s. induction l as [| i l IH]; intros s H; [reflexivity |].
  cbn [for_each flat_map fold_left].
  rewrite (H i s (or_introl eq_refl)).
  unfold bind; cbn [outcome trace].
  rewrite IH by (intros j s' Hj; apply H; now right).
  reflexivity.
Qed.

Lemma mlab_cohere_returns (len : nat) (x y : nat -> R) (NFFT : Z) (Fs : R) :
  (0 < NFFT)%Z -> (2 * NFFT <= Z.of_nat len)%Z ->
  mlab_cohere len x y NFFT Fs =
  ret (map (mlab_cxy (Z.to_nat NFFT) (len / Z.to_nat NFFT) Fs x y)
           (seq 0 (Z.to_nat NFFT / 2 + 1)),
       map (fun k => (Fs / INR (Z.to_nat NFFT) * INR k)%R) (seq 0 (Z.to_nat NFFT / 2 + 1))).
Proof.
  intros Hn Hlen. unfold mlab_cohere.
  destruct (Z.ltb_spec (Z.of_nat len) (2 * NFFT)); [lia |].
  destruct (Z.ltb_spec NFFT 0); [lia |].
  destruct (Z.eqb_spec NFFT 0); [lia |].
  reflexivity.
Qed.

Lemma existsb_seq (b n : nat) : (b < n)%nat -> existsb (Nat.eqb b) (seq 0 n) = true.
Proof.
  intros H. apply existsb_exists. exists b. split; [apply in_seq; lia | apply Nat.eqb_refl].
Qed.

Section StoreLoops.

Variable cxy : nat -> nat -> list (option R).
Variable freq : list R.
Variables var mode : nat.

(** The entry read at [k, a, b, var, mode] after one assignment. *)
Lemma store_cohere_entry (vars : mlab_vars) (n1 n2 k a b : nat) (v : option R) :
  nth_error (cxy a b) k = Some v ->
  item (v_coh (store_cohere vars n1 n2 var mode (cxy n1 n2, freq))) [k; a; b; var; mode] =
  if ((a =? n1) && (b =? n2))%nat then v else item (v_coh vars) [k; a; b; var; mode].
Proof.
  intros Hv. unfold store_cohere, assign_column. cbn [v_coh item fst].
  rewrite !Nat.eqb_refl, !andb_true_r.
  destruct (Nat.eqb_spec a n1) as [-> |]; [| reflexivity].
  destruct (Nat.eqb_spec b n2) as [-> |]; [| reflexivity].
  cbn [andb]. now rewrite Hv.
Qed.

Lemma inner_loop_entry (l : list nat) (vars : mlab_vars) (n1 k a b : nat) (v : option R) :
  nth_error (cxy a b) k = Some v ->
  item (v_coh (fold_left (fun s n2 => store_cohere s n1 n2 var mode (cxy n1 n2, freq)) l vars))
       [k; a; b; var; mode] =
  if ((a =? n1) && existsb (Nat.eqb b) l)%nat then v
  else item (v_coh vars) [k; a; b; var; mode].
Proof.
  intros Hv. revert vars. induction l as [| x l IH]; intros vars.
  - cbn [fold_left existsb]. now rewrite andb_false_r.
  - cbn [fold_left existsb]. rewrite IH, store_cohere_entry with (v := v) by exact Hv.
    destruct (a =? n1)%nat, (b =? x)%nat, (existsb (Nat.eqb b) l); reflexivity.
Qed.

Lemma outer_loop_entry (l l2 : list nat) (vars : mlab_vars) (k a b : nat) (v : option R) :
  nth_error (cxy a b) k = Some v ->
  item (v_coh (fold_left
                 (fun s n1 =>
                    fold_left (fun s' n2 => store_cohere s' n1 n2 var mode (cxy n1 n2, freq)) l2 s)
                 l vars))
       [k; a; b; var; mode] =
  if (existsb (Nat.eqb a) l && existsb (Nat.eqb b) l2)%nat then v
  else item (v_coh vars) [k; a; b; var; mode].
Proof.
  intros Hv. revert vars. induction l as [| x l IH]; intros vars.
  - reflexivity.
  - cbn [fold_left existsb]. rewrite IH, inner_loop_entry with (v := v) by exact Hv.
    destruct (a =? x)%nat, (existsb (Nat.eqb a) l), (existsb (Nat.eqb b) l2); reflexivity.
Qed.

Lemma inner_loop_vars (l : list nat) (vars : mlab_vars) (n1 : nat) :
  let vars' := fold_left (fun s n2 => store_cohere s n1 n2 var mode (cxy n1 n2, freq)) l vars in
  shape (v_coh vars') = shape (v_coh vars) /\
  (v_freq vars = Some freq \/ l <> [] -> v_freq vars' = Some freq).
Proof.
  revert vars. induction l as [| x l IH]; intros vars; cbn zeta.
  - split; [reflexivity |]. intros [H | H]; [assumption | contradiction].
  - cbn [fold_left].
    destruct (IH (store_cohere vars n1 x var mode (cxy n1 x, freq))) as [Hs Hf].
    cbn zeta in Hs, Hf. split; [rewrite Hs; reflexivity |].
    intros _. apply Hf. left. reflexivity.
Qed.

Lemma outer_loop_vars (l l2 : list nat) (vars : mlab_vars) :
  let vars' := fold_left
                 (fun s n1 =>
                    fold_left (fun s' n2 => store_cohere s' n1 n2 var mode (cxy n1 n2, freq)) l2 s)
                 l vars in
  shape (v_coh vars') = shape (v_coh vars) /\
  (v_freq vars = Some freq \/ (l <> [] /\ l2 <> []) -> v_freq vars' = Some freq).
Proof.
  revert vars. induction l as [| x l IH]; intros vars; cbn zeta.
  - split; [reflexivity |]. intros [H | [H _]]; [assumption | contradiction].
  - cbn [fold_left].
    destruct (inner_loop_vars l2 vars x) as [Hs1 Hf1]. cbn zeta in Hs1, Hf1.
    destruct (IH (fold_left (fun s' n2 => store_cohere s' x n2 var mode (cxy x n2, freq)) l2 vars))
      as [Hs Hf].
    cbn zeta in Hs, Hf. split; [now rewrite Hs |].
    intros H. apply Hf. left. apply Hf1.
    destruct H as [H | [_ H]]; [now left | now right].
Qed.

End StoreLoops.

Lemma slice_var_mode_4d (data : ndarray R) (nt ns nn nm var mode : nat) :
  shape data = [nt; ns; nn; nm] -> (var < ns)%nat -> (mode < nm)%nat ->
  slice_var_mode data var mode =
  ret (NdArray [nt; nn]
         (fun ix => match ix with
                    | t :: n :: r => item data (t :: var :: n :: mode :: r)
                    | _ => 0%R
                    end)).
Proof.
  intros Hsh Hv Hm. unfold slice_var_mode. rewrite Hsh.
  destruct (Nat.ltb_spec var ns); [| lia].
  destruct (Nat.ltb_spec mode nm); [| lia].
  reflexivity.
Qed.

Lemma slice_var_mode_2d (data : ndarray R) (nt nn var mode : nat) :
  shape data = [nt; nn] ->
  slice_var_mode data var mode = raise (IndexError "too many indices").
Proof. intros Hsh. unfold slice_var_mode. now rewrite Hsh. Qed.

(** The two loops over the nodes, for one state variable and one mode. *)
Lemma node_loops (d : ndarray R) (n : Z) (sr : R) (nn var mode : nat) (init : mlab_vars) :
  (0 < n)%Z -> (2 * n <= Z.of_nat (hd 0%nat (shape d)))%Z ->
  for_each (seq 0 nn)
    (fun n1 =>
       for_each (seq 0 nn)
         (fun n2 vars =>
            (tick KCohere ;;;
             r <- mlab_cohere (hd 0%nat (shape d))
                    (fun t => item d [t; n1]) (fun t => item d [t; n2]) n sr ;;
             ret (store_cohere vars n1 n2 var mode r))%run))
    init =
  Run (flat_map (fun _ => flat_map (fun _ => [KCohere]) (seq 0 nn)) (seq 0 nn))
      (inr (fold_left
              (fun s n1 =>
                 fold_left
                   (fun s' n2 =>
                      store_cohere s' n1 n2 var mode
                        (map (mlab_cxy (Z.to_nat n) (hd 0%nat (shape d) / Z.to_nat n) sr
                                (fun t => item d [t; n1]) (fun t => item d [t; n2]))
                             (seq 0 (Z.to_nat n / 2 + 1)),
                         map (fun k => (sr / INR (Z.to_nat n) * INR k)%R)
                             (seq 0 (Z.to_nat n / 2 + 1))))
                   (seq 0 nn) s)
              (seq 0 nn) init)).
Proof.
  intros Hn Hlen.
  apply for_each_fold with
    (tr := fun _ : nat => flat_map (fun _ : nat => [KCohere]) (seq 0 nn))
    (g := fun s n1 =>
            fold_left
              (fun s' n2 =>
                 store_cohere s' n1 n2 var mode
                   (map (mlab_cxy (Z.to_nat n) (hd 0%nat (shape d) / Z.to_nat n) sr
                           (fun t => item d [t; n1]) (fun t => item d [t; n2]))
                        (seq 0 (Z.to_nat n / 2 + 1)),
                    map (fun k => (sr / INR (Z.to_nat n) * INR k)%R)
                        (seq 0 (Z.to_nat n / 2 + 1))))
              (seq 0 nn) s).
  intros n1 s _.
  apply for_each_fold with
    (tr := fun _ : nat => [KCohere])
    (g := fun s' n2 =>
            store_cohere s' n1 n2 var mode
              (map (mlab_cxy (Z.to_nat n) (hd 0%nat (shape d) / Z.to_nat n) sr
                      (fun t => item d [t; n1]) (fun t => item d [t; n2]))
                   (seq 0 (Z.to_nat n / 2 + 1)),
               map (fun k => (sr / INR (Z.to_nat n) * INR k)%R)
                   (seq 0 (Z.to_nat n / 2 + 1)))).
  intros n2 s' _.
  rewrite mlab_cohere_returns by assumption.
  reflexivity.
Qed.

Lemma coherence_mlab_valid (data : ndarray R) (sr : R) (n : Z) (nt nn : nat) :
  shape data = [nt; 1; nn; 1]%nat -> (0 < n)%Z -> (2 * n <= Z.of_nat nt)%Z -> (1 <= nn)%nat ->
  exists tr arr freq,
    coherence_mlab data sr n = Run tr (inr (arr, freq)) /\
    shape arr = [Z.to_nat (n / 2 + 1); nn; nn; 1; 1]%nat /\
    forall k i j, (k < Z.to_nat n / 2 + 1)%nat -> (i < nn)%nat -> (j < nn)%nat ->
      item arr [k; i; j; 0; 0]%nat =
      mlab_cxy (Z.to_nat n) (nt / Z.to_nat n) sr
               (mlab_channel data nt 0 0 i) (mlab_channel data nt 0 0 j) k.
Proof.
  intros Hsh Hn Hlen Hnn.
  assert (Hfl : (0 <= n / 2 + 1)%Z).
  { assert (0 <= n / 2)%Z by (apply Z.div_pos; lia). lia. }
  unfold coherence_mlab.
  rewrite Hsh, unpack4_four, bind_ret.
  destruct (Z.ltb_spec (n / 2 + 1) 0); [lia |].
  cbn [seq for_each v_data v_coh v_freq].
  rewrite (@slice_var_mode_4d data nt 1 nn 1 0 0 Hsh) by lia.
  rewrite bind_ret.
  rewrite node_loops by (cbn [remove_mean shape hd]; assumption).
  cbn [remove_mean shape hd item].
  set (init := {| v_data := _; v_coh := _; v_freq := None |}).
  pose (cxy := fun n1 n2 : nat =>
                 map (mlab_cxy (Z.to_nat n) (nt / Z.to_nat n) sr
                        (mlab_channel data nt 0 0 n1) (mlab_channel data nt 0 0 n2))
                     (seq 0 (Z.to_nat n / 2 + 1))).
  pose (freq := map (fun k => (sr / INR (Z.to_nat n) * INR k)%R) (seq 0 (Z.to_nat n / 2 + 1))).
  set (V := fold_left _ (seq 0 nn) init).
  assert (HV : V = fold_left
                     (fun s n1 =>
                        fold_left (fun s' n2 => store_cohere s' n1 n2 0 0 (cxy n1 n2, freq))
                                  (seq 0 nn) s)
                     (seq 0 nn) init) by reflexivity.
  destruct (outer_loop_vars cxy freq 0 0 (seq 0 nn) (seq 0 nn) init) as [Hs Hf].
  cbn zeta in Hs, Hf. rewrite <- HV in Hs, Hf.
  assert (Hfreq : v_freq V = Some freq).
  { apply Hf. right. destruct nn; [lia |]. split; discriminate. }
  unfold bind, tick, ret; cbn [outcome trace]. rewrite Hfreq. cbn [outcome trace].
  eexists. exists (v_coh V), freq. split; [reflexivity |]. split; [exact Hs |].
  intros k i j Hk Hi Hj. rewrite HV.
  rewrite outer_loop_entry
    with (v := mlab_cxy (Z.to_nat n) (nt / Z.to_nat n) sr
                 (mlab_channel data nt 0 0 i) (mlab_channel data nt 0 0 j) k).
  - now rewrite !existsb_seq by assumption.
  - unfold cxy. rewrite nth_error_map, nth_error_seq.
    destruct (Nat.ltb_spec k (Z.to_nat n / 2 + 1)); [reflexivity | lia].
Qed.










(** ** Values of mlab.cohere *)







(** ** The two estimators *)




(** * Further properties *)

(** ** More on hamming *)

Lemma arange_snoc (M : Z) :
  (0 <= M)%Z -> arange 0 (M + 1) = arange 0 M ++ [M].
Proof.
  intros H. unfold arange.
  replace (Z.to_nat (M + 1 - 0)) with (Z.to_nat (M - 0) + 1)%nat by lia.
  rewrite seq_app, map_app. cbn [seq map]. do 2 f_equal. lia.
Qed.

Lemma Forall_removelast {A} (P : A -> Prop) (l : list A) :
  Forall P l -> Forall P (removelast l).
Proof.
  induction 1 as [| a l Ha Hl IH]; [constructor |].
  cbn [removelast]. destruct l; [constructor | now constructor].
Qed.

Lemma hamming_sample_bounds (x : R) : (0.08 <= 0.54 - 0.46 * cos x <= 1)%R.
Proof. pose proof (COS_bound x). lra. Qed.

(** X1.  The window has exactly [M] samples, whatever the symmetry flag
    (none for [M < 1]): the periodic variant computes [M + 1] samples and
    drops one. *)
Theorem hamming_length (M : Z) (sym : bool) :
  List.length (hamming M sym) = Z.to_nat M.
Proof.
  unfold hamming.
  destruct (Z.ltb_spec M 1); [cbn [List.length]; lia |].
  destruct (Z.eqb_spec M 1) as [-> | Hne]; [reflexivity |].
  destruct (negb sym && (M mod 2 =? 0)%Z).
  - rewrite arange_snoc, map_app by lia. cbn [map].
    rewrite removelast_last, length_map, arange_length. lia.
  - rewrite length_map, arange_length. lia.
Qed.

(** X2.  Every sample of every window lies between 0.08 and 1. *)
Theorem hamming_bounds (M : Z) (sym : bool) :
  Forall (fun w => (0.08 <= w <= 1)%R) (hamming M sym).
Proof.
  unfold hamming.
  destruct (Z.ltb_spec M 1); [constructor |].
  destruct (Z.eqb_spec M 1); [repeat constructor; lra |].
  assert (Hall : forall M' l,
             Forall (fun w => (0.08 <= w <= 1)%R)
                    (map (fun n => (0.54 - 0.46 * cos (2 * PI * IZR n / IZR (M' - 1)))%R) l)).
  { intros M' l. apply Forall_map, Forall_forall. intros k _. apply hamming_sample_bounds. }
  destruct (negb sym && (M mod 2 =? 0)%Z); [apply Forall_removelast |]; apply Hall.
Qed.

Lemma hamming_sym_length (M : Z) :
  (2 <= M)%Z -> List.length (hamming M true) = Z.to_nat M.
Proof.
  intros H. rewrite hamming_sym_general, length_map, arange_length by assumption. lia.
Qed.

(** X3.  The symmetric window reads the same in both directions. *)
Theorem hamming_sym_palindrome (M : Z) : rev (hamming M true) = hamming M true.
Proof.
  destruct (Z.ltb_spec M 2) as [Hlt | Hge].
  - unfold hamming. destruct (Z.ltb_spec M 1); [reflexivity |].
    destruct (Z.eqb_spec M 1); [reflexivity | lia].
  - apply nth_ext with (d := 0%R) (d' := 0%R); [now rewrite length_rev |].
    intros n Hn. rewrite length_rev, hamming_sym_length in Hn by assumption.
    rewrite rev_nth by (rewrite hamming_sym_length; lia).
    rewrite hamming_sym_length, !hamming_sym_nth by lia.
    do 2 f_equal.
    assert (HM : IZR (M - 1) <> 0%R) by (apply not_0_IZR; lia).
    replace (INR (Z.to_nat M - S n)) with (IZR (M - 1) - INR n)%R.
    + replace (2 * PI * (IZR (M - 1) - INR n) / IZR (M - 1))%R
        with (- (2 * PI * INR n / IZR (M - 1)) + 2 * INR 1 * PI)%R
        by (simpl; field; assumption).
      now rewrite cos_period, cos_neg.
    + rewrite minus_INR, S_INR by lia.
      rewrite (INR_IZR_INZ (Z.to_nat M)), Z2Nat.id, minus_IZR by lia. ring.
Qed.

(** X4.  For an odd length the symmetry flag has no effect. *)
Theorem hamming_odd_ignores_sym (k : Z) (sym : bool) :
  hamming (2 * k + 1) sym = hamming (2 * k + 1) true.
Proof.
  unfold hamming.
  replace ((2 * k + 1) mod 2)%Z with 1%Z
    by (rewrite Z.add_comm, Z.mul_comm, Z.mod_add by lia; reflexivity).
  cbn [Z.eqb]. now rewrite !andb_false_r.
Qed.

(** X5.  For an even length [M = 2p] the window asked with [sym] false is
    the periodic one: sample [n] is 0.54 - 0.46 cos(2 pi n / M). *)
Theorem hamming_periodic_closed_form (p : BinNums.positive) :
  hamming (2 * Z.pos p) false =
  map (fun n => (0.54 - 0.46 * cos (2 * PI * IZR n / IZR (2 * Z.pos p)))%R)
      (arange 0 (2 * Z.pos p)).
Proof.
  rewrite hamming_periodic_even.
  - rewrite arange_snoc, map_app by lia. cbn [map]. rewrite removelast_last.
    now rewrite Z.add_simpl_r.
  - lia.
  - now rewrite Z.mul_comm, Z.mod_mul.
Qed.

(** ** More on coherence *)

(** The frequencies kept by the mask, for a positive sample rate. *)
Lemma fftfreq_positive_values (n : Z) (sr : R) (fs : list R) :
  (1 <= n)%Z -> (0 < sr)%R ->
  fftfreq n (1e3 / sr) = ret fs ->
  take_mask 0%R fs (map positive fs) =
  map (fun k => (INR k * sr / (1000 * IZR n))%R) (seq 1 (Z.to_nat ((n - 1) / 2))).
Proof.
  intros Hn Hsr Hfs. unfold take_mask.
  rewrite (fftfreq_positive_bins Hn Hsr Hfs).
  assert (Hd : (0 < IZR n * (1e3 / sr))%R).
  { apply Rmult_lt_0_compat; [apply (IZR_lt 0); lia |].
    apply Rdiv_lt_0_compat; lra. }
  unfold fftfreq in Hfs. rewrite py_fdiv_nonzero, bind_ret in Hfs by lra.
  injection Hfs as Hfs. subst fs.
  assert (Hpos : (0 <= (n - 1) / 2)%Z) by (apply Z.div_pos; lia).
  assert (Hlt : ((n - 1) / 2 < n)%Z) by (apply Z.div_lt_upper_bound; lia).
  apply map_ext_in. intros k Hk. apply in_seq in Hk.
  rewrite nth_indep with (d' := (IZR 0 * (1 / (IZR n * (1e3 / sr))))%R)
    by (rewrite length_map, fftfreq_table_length; lia).
  rewrite map_nth with (f := fun r => (IZR r * (1 / (IZR n * (1e3 / sr))))%R).
  rewrite fftfreq_table_nth by lia.
  destruct (Z.leb_spec (Z.of_nat k) ((n - 1) / 2)); [| lia].
  rewrite <- INR_IZR_INZ.
  assert (IZR n <> 0%R) by (apply not_0_IZR; lia).
  field; repeat split; (lra || assumption).
Qed.

(** The result of a valid call, frequency axis included. *)
Lemma coherence_valid_result (data : ndarray R) (sr : R) (n : Z) (imag : bool)
  (nt ns nn nm : nat) :
  shape data = [nt; ns; nn; nm] -> (0 < nn)%nat ->
  (0 < n <= Z.of_nat nt)%Z -> (0 < sr)%R ->
  coherence data sr n imag =
  Run [KSegment; KWindow; KFFT; KFFTFreq; KCrossPower; KNormalise]
      (inr (NdArray [Z.to_nat ((n - 1) / 2); nn; nn; ns; nm]
              (fun ix => match ix with
                         | [f; i; j; s; m] =>
                             segment_mean (Z.to_nat (Z.of_nat nt / n))
                               (ratio (cross_power (spectra data n) imag)) i j s m
                               (nth f (seq 1 (Z.to_nat ((n - 1) / 2))) 0%nat)
                         | _ => None
                         end),
            map (fun k => (INR k * sr / (1000 * IZR n))%R)
                (seq 1 (Z.to_nat ((n - 1) / 2))))) /\
  (1 <= Z.to_nat (Z.of_nat nt / n))%nat.
Proof.
  intros Hsh Hnn Hn Hsr. split.
  - destruct (coherence_enough data sr imag Hsh Hn)
      as [[Hz _] | [[_ [Hz _]] | [_ [_ [fs [Hfs Hc]]]]]]; [lra | lia |].
    rewrite (@fftfreq_positive_values n sr fs) in Hc by (lia || assumption).
    rewrite (@fftfreq_positive_bins n sr fs) in Hc by (lia || assumption).
    rewrite length_seq in Hc. exact Hc.
  - assert (1 <= Z.of_nat nt / n)%Z by (apply Z.div_le_lower_bound; lia). lia.
Qed.

(** X6.  On a valid call with a positive sample rate the frequency axis
    returned is k * sample_rate / (1000 * nfft) for k = 1 .. (nfft - 1) / 2:
    positive, increasing, and in units of 1/1000 of the sample rate. *)
Theorem coherence_frequency_axis (data : ndarray R) (sr : R) (n : Z) (imag : bool)
  (nt ns nn nm : nat) :
  shape data = [nt; ns; nn; nm] -> (0 < nn)%nat ->
  (0 < n <= Z.of_nat nt)%Z -> (0 < sr)%R ->
  exists arr,
    coherence data sr n imag =
    Run [KSegment; KWindow; KFFT; KFFTFreq; KCrossPower; KNormalise]
        (inr (arr, map (fun k => (INR k * sr / (1000 * IZR n))%R)
                       (seq 1 (Z.to_nat ((n - 1) / 2))))).
Proof.
  intros Hsh Hnn Hn Hsr.
  destruct (@coherence_valid_result data sr n imag nt ns nn nm Hsh Hnn Hn Hsr) as [Hc _].
  eexists. exact Hc.
Qed.

(** The impulse series at 1000 samples per second, nfft = 4: one bin, at 0.25. *)
Lemma coherence_frequency_axis_witness :
  exists arr,
    coherence impulse_series 1000 4 false =
    Run [KSegment; KWindow; KFFT; KFFTFreq; KCrossPower; KNormalise]
        (inr (arr, map (fun k => (INR k * 1000 / (1000 * IZR 4))%R)
                       (seq 1 (Z.to_nat ((4 - 1) / 2))))).
Proof.
  apply (@coherence_frequency_axis impulse_series 1000 4 false 8 1 2 1 eq_refl).
  - lia.
  - simpl; lia.
  - lra.
Defined.

(** X7.  The coherence array does not depend on the sample rate: two calls
    that differ only in their positive sample rates return the same array,
    and frequency axes in the ratio of the rates. *)
Theorem coherence_array_ignores_sample_rate (data : ndarray R) (sr1 sr2 : R) (n : Z)
  (imag : bool) (nt ns nn nm : nat) :
  shape data = [nt; ns; nn; nm] -> (0 < nn)%nat ->
  (0 < n <= Z.of_nat nt)%Z -> (0 < sr1)%R -> (0 < sr2)%R ->
  exists arr fs1,
    coherence data sr1 n imag =
    Run [KSegment; KWindow; KFFT; KFFTFreq; KCrossPower; KNormalise] (inr (arr, fs1)) /\
    coherence data sr2 n imag =
    Run [KSegment; KWindow; KFFT; KFFTFreq; KCrossPower; KNormalise]
        (inr (arr, map (fun x => (x * (sr2 / sr1))%R) fs1)).
Proof.
  intros Hsh Hnn Hn Hsr1 Hsr2.
  destruct (@coherence_valid_result data sr1 n imag nt ns nn nm Hsh Hnn Hn Hsr1) as [Hc1 _].
  destruct (@coherence_valid_result data sr2 n imag nt ns nn nm Hsh Hnn Hn Hsr2) as [Hc2 _].
  do 2 eexists. split; [exact Hc1 |]. rewrite Hc2. do 3 f_equal.
  rewrite map_map. apply map_ext. intros k.
  assert (IZR n <> 0%R) by (apply not_0_IZR; lia).
  field; repeat split; (lra || assumption).
Qed.

Lemma coherence_array_ignores_sample_rate_witness :
  exists arr fs1,
    coherence impulse_series 1000 4 false =
    Run [KSegment; KWindow; KFFT; KFFTFreq; KCrossPower; KNormalise] (inr (arr, fs1)) /\
    coherence impulse_series 500 4 false =
    Run [KSegment; KWindow; KFFT; KFFTFreq; KCrossPower; KNormalise]
        (inr (arr, map (fun x => (x * (500 / 1000))%R) fs1)).
Proof.
  apply (@coherence_array_ignores_sample_rate impulse_series 1000 500 4 false 8 1 2 1 eq_refl).
  - lia.
  - simpl; lia.
  - lra.
  - lra.
Defined.

Lemma fft_ext (N : nat) (x y : nat -> R) (k : nat) :
  (forall t, (t < N)%nat -> x t = y t) -> fft N x k = fft N y k.
Proof.
  intros H. unfold fft. f_equal. apply map_ext_in.
  intros t Ht. apply in_seq in Ht. now rewrite H by lia.
Qed.

(** The spectrum of a segment reads only the samples of that segment. *)
Lemma spectra_ext (d1 d2 : ndarray R) (n : Z) (i s m w k : nat) :
  (forall t, (t < Z.to_nat n)%nat ->
     item d1 [(w * Z.to_nat n + t)%nat; s; i; m] = item d2 [(w * Z.to_nat n + t)%nat; s; i; m]) ->
  spectra d1 n i s m w k = spectra d2 n i s m w k.
Proof.
  intros H. unfold spectra. apply fft_ext.
  intros t Ht. unfold taper, segments. now rewrite H.
Qed.

Lemma ratio_ext (F1 F2 : nat -> nat -> nat -> nat -> nat -> complex) (imag : bool)
  (i j s m w k : nat) :
  F1 i s m w k = F2 i s m w k -> F1 j s m w k = F2 j s m w k ->
  ratio (cross_power F1 imag) i j s m w k = ratio (cross_power F2 imag) i j s m w k.
Proof. intros Hi Hj. unfold ratio, cross_power. now rewrite Hi, Hj. Qed.

(** X8.  An entry of the coherence array is determined by the samples of
    its two nodes, for its state variable and mode, over the segments that
    are used: the samples left over after the last full segment, the other
    nodes and the other state variables and modes have no influence. *)
Theorem coherence_entry_locality (d1 d2 : ndarray R) (sr : R) (n : Z) (imag : bool)
  (nt ns nn nm : nat) (i j s m : nat) :
  shape d1 = [nt; ns; nn; nm] -> shape d2 = [nt; ns; nn; nm] -> (0 < nn)%nat ->
  (0 < n <= Z.of_nat nt)%Z -> (0 < sr)%R ->
  (forall t, (t < Z.to_nat (Z.of_nat nt / n) * Z.to_nat n)%nat ->
     item d1 [t; s; i; m] = item d2 [t; s; i; m] /\
     item d1 [t; s; j; m] = item d2 [t; s; j; m]) ->
  exists arr1 arr2 fs,
    coherence d1 sr n imag =
    Run [KSegment; KWindow; KFFT; KFFTFreq; KCrossPower; KNormalise] (inr (arr1, fs)) /\
    coherence d2 sr n imag =
    Run [KSegment; KWindow; KFFT; KFFTFreq; KCrossPower; KNormalise] (inr (arr2, fs)) /\
    forall f, item arr1 [f; i; j; s; m] = item arr2 [f; i; j; s; m].
Proof.
  intros Hsh1 Hsh2 Hnn Hn Hsr Hsame.
  destruct (@coherence_valid_result d1 sr n imag nt ns nn nm Hsh1 Hnn Hn Hsr) as [Hc1 _].
  destruct (@coherence_valid_result d2 sr n imag nt ns nn nm Hsh2 Hnn Hn Hsr) as [Hc2 _].
  do 3 eexists. split; [exact Hc1 |]. split; [exact Hc2 |].
  intros f. cbn [item]. unfold segment_mean. f_equal.
  apply map_ext_in. intros w Hw. apply in_seq in Hw.
  assert (Hblock : forall t, (t < Z.to_nat n)%nat ->
            (w * Z.to_nat n + t < Z.to_nat (Z.of_nat nt / n) * Z.to_nat n)%nat) by nia.
  apply ratio_ext; apply spectra_ext; intros t Ht; apply Hsame, Hblock, Ht.
Qed.

(** Segments of three samples: the last two of the eight samples are left
    over, and changing them changes nothing. *)
Lemma coherence_entry_locality_witness :
  exists arr1 arr2 fs,
    coherence impulse_series 1000 3 false =
    Run [KSegment; KWindow; KFFT; KFFTFreq; KCrossPower; KNormalise] (inr (arr1, fs)) /\
    coherence tail_changed_series 1000 3 false =
    Run [KSegment; KWindow; KFFT; KFFTFreq; KCrossPower; KNormalise] (inr (arr2, fs)) /\
    forall f, item arr1 [f; 0; 1; 0; 0]%nat = item arr2 [f; 0; 1; 0; 0]%nat.
Proof.
  apply (@coherence_entry_locality impulse_series tail_changed_series 1000 3 false
           8 1 2 1 0 1 0 0 eq_refl eq_refl).
  - lia.
  - simpl; lia.
  - lra.
  - intros t Ht. change (Z.to_nat (Z.of_nat 8 / 3) * Z.to_nat 3)%nat with 6%nat in Ht.
    unfold tail_changed_series. cbn [item].
    destruct (Nat.ltb_spec t 6); [split; reflexivity | lia].
Defined.

(** X9.  With [imag] set the divisor [dG[:, newaxis] * dG] is identically
    zero, because [dG] is read off the diagonal after [G = G.imag]: on every
    valid call every entry of the returned array is non-finite. *)
Theorem coherence_imag_never_finite (data : ndarray R) (sr : R) (n : Z)
  (nt ns nn nm : nat) :
  shape data = [nt; ns; nn; nm] -> (0 < nn)%nat ->
  (0 < n <= Z.of_nat nt)%Z -> (0 < sr)%R ->
  exists arr fs,
    coherence data sr n true =
    Run [KSegment; KWindow; KFFT; KFFTFreq; KCrossPower; KNormalise] (inr (arr, fs)) /\
    forall f i j s m, item arr [f; i; j; s; m] = None.
Proof.
  intros Hsh Hnn Hn Hsr.
  destruct (@coherence_valid_result data sr n true nt ns nn nm Hsh Hnn Hn Hsr) as [Hc Hwin].
  do 2 eexists. split; [exact Hc |].
  intros f i j s m. cbn [item]. unfold segment_mean.
  apply Cmean_none with (x := 0%nat); [apply in_seq; lia | apply ratio_imag].
Qed.

Lemma coherence_imag_never_finite_witness :
  exists arr fs,
    coherence impulse_series 1000 4 true =
    Run [KSegment; KWindow; KFFT; KFFTFreq; KCrossPower; KNormalise] (inr (arr, fs)) /\
    forall f i j s m, item arr [f; i; j; s; m] = None.
Proof.
  apply (@coherence_imag_never_finite impulse_series 1000 4 8 1 2 1 eq_refl).
  - lia.
  - simpl; lia.
  - lra.
Defined.

(** X10.  With [imag] false an entry at a kept bin is 1 when the spectra of
    its two nodes are nonzero in every segment, and non-finite as soon as
    one of them vanishes in some segment: no other value is ever returned. *)
Theorem coherence_entry_characterised (data : ndarray R) (sr : R) (n : Z)
  (nt ns nn nm : nat) :
  shape data = [nt; ns; nn; nm] -> (0 < nn)%nat ->
  (0 < n <= Z.of_nat nt)%Z -> (0 < sr)%R ->
  exists arr fs,
    coherence data sr n false =
    Run [KSegment; KWindow; KFFT; KFFTFreq; KCrossPower; KNormalise] (inr (arr, fs)) /\
    forall f i j s m, (f < Z.to_nat ((n - 1) / 2))%nat ->
      ((forall w, (w < Z.to_nat (Z.of_nat nt / n))%nat ->
          spectra data n i s m w (S f) <> C0 /\ spectra data n j s m w (S f) <> C0) ->
       item arr [f; i; j; s; m] = Some C1) /\
      ((exists w, (w < Z.to_nat (Z.of_nat nt / n))%nat /\
          (spectra data n i s m w (S f) = C0 \/ spectra data n j s m w (S f) = C0)) ->
       item arr [f; i; j; s; m] = None).
Proof.
  intros Hsh Hnn Hn Hsr.
  destruct (@coherence_valid_result data sr n false nt ns nn nm Hsh Hnn Hn Hsr) as [Hc Hwin].
  do 2 eexists. split; [exact Hc |].
  intros f i j s m Hf. cbn [item]. rewrite bin_of_index by assumption.
  unfold segment_mean. split.
  - intros Hall. apply Cmean_ones; [now apply segments_nonempty |].
    intros w Hw. apply in_seq in Hw. apply ratio_one; apply Hall; lia.
  - intros [w [Hw Hz]]. apply Cmean_none with (x := w); [apply in_seq; lia |].
    now apply ratio_zero_power.
Qed.

Lemma coherence_entry_characterised_witness :
  exists arr fs,
    coherence impulse_series 1000 4 false =
    Run [KSegment; KWindow; KFFT; KFFTFreq; KCrossPower; KNormalise] (inr (arr, fs)) /\
    item arr [0; 1; 0; 0; 0]%nat = Some C1.
Proof.
  destruct (@coherence_entry_characterised impulse_series 1000 4 8 1 2 1 eq_refl
              ltac:(lia) ltac:(simpl; lia) ltac:(lra)) as [arr [fs [Hc Hall]]].
  exists arr, fs. split; [exact Hc |].
  apply (proj1 (Hall 0 1 0 0 0 ltac:(simpl; lia)))%nat.
  intros w _. split; apply spectra_impulse_series_nonzero.
Defined.

Lemma Csum_scale (c : R) (l : list complex) :
  Csum (map (Cscale c) l) = Cscale c (Csum l).
Proof.
  induction l as [| a l IH].
  - unfold Csum, Cscale, C0; cbn [map fold_right Re Im]. f_equal; ring.
  - change (Csum (map (Cscale c) (a :: l)))
      with (Cadd (Cscale c a) (Csum (map (Cscale c) l))).
    rewrite IH. change (Csum (a :: l)) with (Cadd a (Csum l)).
    unfold Cadd, Cscale; cbn [Re Im]. f_equal; ring.
Qed.

Lemma spectra_scale (c : R) (data : ndarray R) (n : Z) (i s m w k : nat) :
  spectra (scale_series c data) n i s m w k = Cscale c (spectra data n i s m w k).
Proof.
  unfold spectra, fft. rewrite <- Csum_scale, map_map. f_equal.
  apply map_ext. intros t. unfold taper, segments, scale_series, Cscale; cbn [item Re Im].
  f_equal; ring.
Qed.

Lemma Cscale_zero_iff (c : R) (z : complex) : c <> 0%R -> (Cscale c z = C0 <-> z = C0).
Proof.
  intros Hc. destruct z as [a b]. unfold Cscale, C0; cbn [Re Im]. split; intros H.
  - pose proof (f_equal Re H) as Ha. pose proof (f_equal Im H) as Hb.
    cbn [Re Im] in Ha, Hb.
    apply Rmult_integral in Ha. apply Rmult_integral in Hb.
    destruct Ha as [Ha | Ha]; [contradiction |].
    destruct Hb as [Hb | Hb]; [contradiction |]. now subst.
  - pose proof (f_equal Re H) as Ha. pose proof (f_equal Im H) as Hb.
    cbn [Re Im] in Ha, Hb. subst. f_equal; ring.
Qed.

(** X11.  Multiplying the whole series by a nonzero constant changes no
    entry of the coherence array ([imag] false). *)
Theorem coherence_scale_invariant (c : R) (data : ndarray R) (sr : R) (n : Z)
  (nt ns nn nm : nat) :
  c <> 0%R ->
  shape data = [nt; ns; nn; nm] -> (0 < nn)%nat ->
  (0 < n <= Z.of_nat nt)%Z -> (0 < sr)%R ->
  exists arr arr' fs,
    coherence data sr n false =
    Run [KSegment; KWindow; KFFT; KFFTFreq; KCrossPower; KNormalise] (inr (arr, fs)) /\
    coherence (scale_series c data) sr n false =
    Run [KSegment; KWindow; KFFT; KFFTFreq; KCrossPower; KNormalise] (inr (arr', fs)) /\
    shape arr' = shape arr /\
    forall f i j s m, item arr' [f; i; j; s; m] = item arr [f; i; j; s; m].
Proof.
  intros Hc Hsh Hnn Hn Hsr.
  destruct (@coherence_valid_result data sr n false nt ns nn nm Hsh Hnn Hn Hsr) as [Hc1 _].
  destruct (@coherence_valid_result (scale_series c data) sr n false nt ns nn nm
              Hsh Hnn Hn Hsr) as [Hc2 _].
  do 3 eexists. split; [exact Hc1 |]. split; [exact Hc2 |]. split; [reflexivity |].
  intros f i j s m. cbn [item]. unfold segment_mean. f_equal.
  apply map_ext. intros w.
  set (k := nth f (seq 1 (Z.to_nat ((n - 1) / 2))) 0%nat).
  destruct (complex_eq_dec (spectra data n i s m w k) C0) as [Hi | Hi].
  { rewrite !ratio_zero_power; [reflexivity | now left |].
    left. rewrite spectra_scale. now apply Cscale_zero_iff. }
  destruct (complex_eq_dec (spectra data n j s m w k) C0) as [Hj | Hj].
  { rewrite !ratio_zero_power; [reflexivity | now right |].
    right. rewrite spectra_scale. now apply Cscale_zero_iff. }
  rewrite !ratio_one; try assumption; try reflexivity;
    rewrite spectra_scale; intros H; apply Cscale_zero_iff in H; auto.
Qed.

Lemma coherence_scale_invariant_witness :
  exists arr arr' fs,
    coherence impulse_series 1000 4 false =
    Run [KSegment; KWindow; KFFT; KFFTFreq; KCrossPower; KNormalise] (inr (arr, fs)) /\
    coherence (scale_series 3 impulse_series) 1000 4 false =
    Run [KSegment; KWindow; KFFT; KFFTFreq; KCrossPower; KNormalise] (inr (arr', fs)) /\
    shape arr' = shape arr /\
    forall f i j s m, item arr' [f; i; j; s; m] = item arr [f; i; j; s; m].
Proof.
  apply (@coherence_scale_invariant 3 impulse_series 1000 4 8 1 2 1).
  - lra.
  - reflexivity.
  - lia.
  - simpl; lia.
  - lra.
Defined.

(** X12.  A zero sample rate is not rejected up front: the division
    [1e3 / sample_rate] fails only after the series has been segmented,
    tapered and transformed. *)
Theorem coherence_zero_sample_rate (data : ndarray R) (n : Z) (imag : bool)
  (nt ns nn nm : nat) :
  shape data = [nt; ns; nn; nm] -> (0 < n <= Z.of_nat nt)%Z ->
  coherence data 0 n imag =
  Run [KSegment; KWindow; KFFT] (inl (ZeroDivisionError "float division by zero")).
Proof.
  intros Hsh Hn.
  destruct (coherence_enough data 0 imag Hsh Hn)
    as [[_ Hc] | [[Hz _] | [Hz _]]]; [exact Hc | |]; contradiction Hz; reflexivity.
Qed.

Lemma coherence_zero_sample_rate_witness :
  coherence impulse_series 0 4 false =
  Run [KSegment; KWindow; KFFT] (inl (ZeroDivisionError "float division by zero")).
Proof.
  apply (@coherence_zero_sample_rate impulse_series 4 false 8 1 2 1 eq_refl).
  simpl; lia.
Defined.

(** A predicate true exactly from [N] on keeps the end of [seq 0 n]. *)
Lemma filter_seq_suffix (p : nat -> bool) (n N : nat) :
  (N <= n)%nat ->
  (forall k, (k < n)%nat -> p k = true <-> (N <= k)%nat) ->
  filter p (seq 0 n) = seq N (n - N).
Proof.
  intros HN Hp.
  replace n with (N + (n - N))%nat at 1 by lia.
  rewrite seq_app, filter_app.
  rewrite (filter_none p (seq 0 N)), (filter_all p (seq (0 + N) (n - N))).
  - reflexivity.
  - intros x Hx. apply in_seq in Hx. apply Hp; lia.
  - intros x Hx. apply in_seq in Hx.
    destruct (p x) eqn:E; [| reflexivity]. apply Hp in E; lia.
Qed.

Lemma positive_scaled_neg (r : Z) (v : R) :
  (v < 0)%R -> positive (IZR r * v) = (r <? 0)%Z.
Proof.
  intros Hv. unfold positive.
  destruct (Z.ltb_spec r 0) as [Hr | Hr].
  - destruct (Rlt_dec 0 (IZR r * v)) as [| Hn]; [reflexivity |].
    exfalso. apply Hn. apply (IZR_lt r 0) in Hr. nra.
  - destruct (Rlt_dec 0 (IZR r * v)) as [Hp |]; [| reflexivity].
    exfalso. apply (IZR_le 0 r) in Hr. nra.
Qed.

(** X23.  A negative sample rate is accepted: the mask then keeps the
    nfft / 2 bins of negative index instead of the (nfft - 1) / 2 bins of
    positive index. *)
Theorem coherence_negative_sample_rate (data : ndarray R) (sr : R) (n : Z) (imag : bool)
  (nt ns nn nm : nat) :
  shape data = [nt; ns; nn; nm] -> (0 < nn)%nat ->
  (0 < n <= Z.of_nat nt)%Z -> (sr < 0)%R ->
  exists arr fs,
    coherence data sr n imag =
    Run [KSegment; KWindow; KFFT; KFFTFreq; KCrossPower; KNormalise] (inr (arr, fs)) /\
    shape arr = [Z.to_nat (n / 2); nn; nn; ns; nm] /\
    List.length fs = Z.to_nat (n / 2).
Proof.
  intros Hsh Hnn Hn Hsr.
  destruct (coherence_enough data sr imag Hsh Hn)
    as [[Hz _] | [[_ [Hz _]] | [_ [_ [fs [Hfs Hc]]]]]]; [lra | lia |].
  assert (Hbins : selected (map positive fs) =
                  seq (Z.to_nat ((n - 1) / 2 + 1)) (Z.to_nat (n / 2))).
  { assert (Hd : (IZR n * (1e3 / sr) < 0)%R).
    { assert (0 < IZR n)%R by (apply (IZR_lt 0); lia).
      assert (1e3 / sr < 0)%R.
      { unfold Rdiv. assert (/ sr < 0)%R by now apply Rinv_lt_0_compat. nra. }
      nra. }
    unfold fftfreq in Hfs. rewrite py_fdiv_nonzero, bind_ret in Hfs by lra.
    injection Hfs as Hfs. subst fs.
    set (v := (1 / (IZR n * (1e3 / sr)))%R).
    assert (Hv : (v < 0)%R).
    { unfold v, Rdiv. rewrite Rmult_1_l. now apply Rinv_lt_0_compat. }
    set (tbl := arange 0 ((n - 1) / 2 + 1) ++ arange (- (n / 2)) 0).
    assert (Hlen : List.length tbl = Z.to_nat n) by (apply fftfreq_table_length; lia).
    assert (Hpos : (0 <= (n - 1) / 2)%Z) by (apply Z.div_pos; lia).
    assert (Hpos' : (0 <= n / 2)%Z) by (apply Z.div_pos; lia).
    pose proof (fftfreq_halves n) as Hh.
    unfold selected. rewrite !length_map, Hlen.
    replace (Z.to_nat (n / 2)) with (Z.to_nat n - Z.to_nat ((n - 1) / 2 + 1))%nat by lia.
    apply filter_seq_suffix; [lia |].
    intros k Hk.
    rewrite nth_indep with (d' := positive (IZR 0 * v)) by (rewrite !length_map; lia).
    rewrite map_map, map_nth with (f := fun r => positive (IZR r * v)).
    rewrite positive_scaled_neg by assumption.
    unfold tbl. rewrite fftfreq_table_nth by lia.
    destruct (Z.leb_spec (Z.of_nat k) ((n - 1) / 2)); rewrite Z.ltb_lt; lia. }
  rewrite Hbins, length_seq in Hc.
  do 2 eexists. split; [exact Hc |]. split; [reflexivity |].
  unfold take_mask. now rewrite length_map, Hbins, length_seq.
Qed.

Lemma coherence_negative_sample_rate_witness :
  exists arr fs,
    coherence impulse_series (-1000) 4 false =
    Run [KSegment; KWindow; KFFT; KFFTFreq; KCrossPower; KNormalise] (inr (arr, fs)) /\
    shape arr = [Z.to_nat (4 / 2); 2; 2; 1; 1]%nat /\
    List.length fs = Z.to_nat (4 / 2).
Proof.
  apply (@coherence_negative_sample_rate impulse_series (-1000) 4 false 8 1 2 1 eq_refl).
  - lia.
  - simpl; lia.
  - lra.
Defined.

(** ** More on the adapter *)

(** X13.  evaluate on a valid adapter returns a spectrum that carries the
    time series and nfft it was built from, an array of shape
    ((nfft - 1) / 2, nodes, nodes, state variables, modes) and as many
    frequencies as the array has bins. *)
Theorem evaluate_returns_spectrum (self : NodeCoherence) (nt ns nn nm : nat) :
  shape (ts_data (time_series self)) = [nt; ns; nn; nm] -> (0 < nn)%nat ->
  (0 < nfft self <= Z.of_nat nt)%Z -> (0 < sample_rate (time_series self))%R ->
  exists spec,
    evaluate self =
    Run [KSegment; KWindow; KFFT; KFFTFreq; KCrossPower; KNormalise] (inr spec) /\
    source spec = time_series self /\
    spectrum_nfft spec = nfft self /\
    shape (array_data spec) = [Z.to_nat ((nfft self - 1) / 2); nn; nn; ns; nm] /\
    List.length (frequency spec) = Z.to_nat ((nfft self - 1) / 2).
Proof.
  intros Hsh Hnn Hn Hsr.
  destruct (@coherence_valid_result _ _ _ false _ _ _ _ Hsh Hnn Hn Hsr) as [Hc _].
  unfold evaluate. rewrite Hc. eexists. split; [reflexivity |].
  cbn [source spectrum_nfft array_data frequency fst snd shape].
  repeat split. now rewrite length_map, length_seq.
Qed.

Lemma evaluate_returns_spectrum_witness :
  exists spec,
    evaluate impulse_adapter =
    Run [KSegment; KWindow; KFFT; KFFTFreq; KCrossPower; KNormalise] (inr spec) /\
    source spec = time_series impulse_adapter /\
    spectrum_nfft spec = nfft impulse_adapter /\
    shape (array_data spec) = [Z.to_nat ((nfft impulse_adapter - 1) / 2); 2; 2; 1; 1]%nat /\
    List.length (frequency spec) = Z.to_nat ((nfft impulse_adapter - 1) / 2).
Proof.
  apply (@evaluate_returns_spectrum impulse_adapter 8 1 2 1 eq_refl).
  - lia.
  - simpl; lia.
  - simpl; lra.
Defined.

(** X14.  On every valid adapter the shape query and the computation agree
    on the node, state-variable and mode axes and disagree on the frequency
    axis: result_shape announces two bins more than evaluate returns when
    nfft is even, and one more when nfft is odd. *)
Theorem result_shape_excess (self : NodeCoherence) (nt ns nn nm : nat) :
  shape (ts_data (time_series self)) = [nt; ns; nn; nm] -> (0 < nn)%nat ->
  (0 < nfft self <= Z.of_nat nt)%Z -> (0 < sample_rate (time_series self))%R ->
  exists spec bins freq_len,
    evaluate self =
    Run [KSegment; KWindow; KFFT; KFFTFreq; KCrossPower; KNormalise] (inr spec) /\
    shape (array_data spec) = [bins; nn; nn; ns; nm] /\
    result_shape self (map Z.of_nat [nt; ns; nn; nm]) =
    Run [] (inr [[freq_len; Z.of_nat nn; Z.of_nat nn; Z.of_nat ns; Z.of_nat nm]; [freq_len]]) /\
    (freq_len = Z.of_nat bins + (2 - nfft self mod 2))%Z.
Proof.
  intros Hsh Hnn Hn Hsr.
  destruct (@coherence_valid_result _ _ _ false _ _ _ _ Hsh Hnn Hn Hsr) as [Hc _].
  unfold evaluate. rewrite Hc. do 3 eexists.
  split; [reflexivity |]. split; [reflexivity |]. split; [reflexivity |].
  assert (Hpos : (0 <= (nfft self - 1) / 2)%Z) by (apply Z.div_pos; lia).
  rewrite Z2Nat.id by assumption.
  pose proof (fftfreq_halves (nfft self)) as Hh.
  pose proof (Z.div_mod (nfft self) 2 ltac:(lia)) as Hd.
  pose proof (Z.mod_pos_bound (nfft self) 2 ltac:(lia)) as Hm.
  lia.
Qed.

(** nfft = 4 is even: three bins announced, one returned. *)
Lemma result_shape_excess_witness :
  exists spec bins freq_len,
    evaluate impulse_adapter =
    Run [KSegment; KWindow; KFFT; KFFTFreq; KCrossPower; KNormalise] (inr spec) /\
    shape (array_data spec) = [bins; 2; 2; 1; 1]%nat /\
    result_shape impulse_adapter (map Z.of_nat [8; 1; 2; 1]%nat) =
    Run [] (inr [[freq_len; Z.of_nat 2; Z.of_nat 2; Z.of_nat 1; Z.of_nat 1]; [freq_len]]) /\
    (freq_len = Z.of_nat bins + (2 - nfft impulse_adapter mod 2))%Z.
Proof.
  apply (@result_shape_excess impulse_adapter 8 1 2 1 eq_refl).
  - lia.
  - simpl; lia.
  - simpl; lra.
Defined.

(** X15.  An input shape of fewer than four entries makes the three size
    queries fail on a tuple index, before anything is computed. *)
Theorem size_queries_short_shape (self : NodeCoherence) (input_shape : list Z) :
  (List.length input_shape < 4)%nat ->
  result_shape self input_shape = Run [] (inl (IndexError "tuple index out of range")) /\
  result_size self input_shape = Run [] (inl (IndexError "tuple index out of range")) /\
  extended_result_size self input_shape =
  Run [] (inl (IndexError "tuple index out of range")).
Proof.
  intros H. unfold extended_result_size, result_size.
  assert (Hs : result_shape self input_shape =
               Run [] (inl (IndexError "tuple index out of range"))).
  { destruct input_shape as [| a [| b [| c [| d t]]]]; try reflexivity.
    simpl in H. lia. }
  rewrite Hs. repeat split.
Qed.

Lemma size_queries_short_shape_witness :
  result_shape impulse_adapter [1024; 1; 4]%Z =
  Run [] (inl (IndexError "tuple index out of range")) /\
  result_size impulse_adapter [1024; 1; 4]%Z =
  Run [] (inl (IndexError "tuple index out of range")) /\
  extended_result_size impulse_adapter [1024; 1; 4]%Z =
  Run [] (inl (IndexError "tuple index out of range")).
Proof.
  apply (@size_queries_short_shape impulse_adapter [1024; 1; 4]%Z).
  simpl; lia.
Defined.

(** ** More on coherence_mlab *)

Lemma outcome_bind {A B} (c : run A) (f : A -> run B) :
  outcome (bind c f) =
  match outcome c with inl e => inl e | inr a => outcome (f a) end.
Proof. unfold bind. destruct (outcome c); reflexivity. Qed.

(** A loop fails as soon as its first iteration does. *)
Lemma for_each_first_fails {S} (i : nat) (l : list nat) (body : nat -> S -> run S)
  (s : S) (e : exn) :
  outcome (body i s) = inl e -> outcome (for_each (i :: l) body s) = inl e.
Proof. intros H. cbn [for_each]. now rewrite outcome_bind, H. Qed.

Lemma node_folds_keep_data (r : nat -> nat -> list (option R) * list R) (var mode : nat)
  (l l2 : list nat) (vars : mlab_vars) :
  v_data (fold_left
            (fun s n1 => fold_left (fun s' n2 => store_cohere s' n1 n2 var mode (r n1 n2)) l2 s)
            l vars) = v_data vars.
Proof.
  assert (Hinner : forall n1 v,
            v_data (fold_left (fun s' n2 => store_cohere s' n1 n2 var mode (r n1 n2)) l2 v) =
            v_data v).
  { intros n1. induction l2 as [| y l2' IH2]; intros v; [reflexivity |].
    cbn [fold_left]. rewrite IH2. reflexivity. }
  revert vars. induction l as [| x l IH]; intros vars; [reflexivity |].
  cbn [fold_left]. rewrite IH. apply Hinner.
Qed.

(** X16.  coherence_mlab rebinds [data] to the 2-D slice of the first state
    variable and mode; any further state variable or mode then indexes that
    2-D array with four indices and fails. *)
Theorem coherence_mlab_second_slice_fails (data : ndarray R) (sr : R) (n : Z)
  (nt ns nn nm : nat) :
  shape data = [nt; ns; nn; nm] -> (1 <= ns)%nat -> (1 <= nm)%nat -> (2 <= ns * nm)%nat ->
  (0 < n)%Z -> (2 * n <= Z.of_nat nt)%Z ->
  outcome (coherence_mlab data sr n) = inl (IndexError "too many indices").
Proof.
  intros Hsh Hns Hnm Hmany Hn Hlen.
  assert (Hfl : (0 <= n / 2 + 1)%Z).
  { assert (0 <= n / 2)%Z by (apply Z.div_pos; lia). lia. }
  unfold coherence_mlab.
  rewrite Hsh, unpack4_four, bind_ret.
  destruct (Z.ltb_spec (n / 2 + 1) 0); [lia |].
  destruct nm as [| nm']; [lia |]. destruct ns as [| ns']; [lia |].
  rewrite outcome_bind. cbn [tick outcome].
  rewrite outcome_bind.
  cbn [seq for_each v_data v_coh v_freq].
  rewrite (@slice_var_mode_4d data nt (S ns') nn (S nm') 0 0 Hsh) by lia.
  rewrite bind_ret.
  rewrite node_loops by (cbn [remove_mean shape hd]; assumption).
  rewrite bind_tick. cbn [trace outcome].
  match goal with
  | |- context [inr (fold_left ?g (seq 0 nn) ?init)] => set (V := fold_left g (seq 0 nn) init)
  end.
  assert (HV : shape (v_data V) = [nt; nn]).
  { unfold V. rewrite node_folds_keep_data. reflexivity. }
  assert (Hfail : forall var mode k,
            outcome (bind (slice_var_mode (v_data V) var mode) k) =
            (inl (IndexError "too many indices") : exn + mlab_vars)).
  { intros var mode k. now rewrite (slice_var_mode_2d _ var mode HV). }
  rewrite !outcome_bind. cbn [outcome].
  destruct ns' as [| ns''].
  - (* one state variable: the second mode fails *)
    cbn [seq for_each ret outcome].
    destruct nm' as [| nm'']; [lia |].
    cbn [seq]. erewrite for_each_first_fails; [reflexivity |].
    rewrite outcome_bind, Hfail. reflexivity.
  - (* the second state variable fails *)
    cbn [seq]. erewrite for_each_first_fails; [reflexivity |].
    apply Hfail.
Qed.

(** Two state variables. *)
Lemma coherence_mlab_second_slice_fails_witness :
  outcome (coherence_mlab (NdArray [8; 2; 2; 1]%nat (fun _ => 1%R)) 1000 4) =
  inl (IndexError "too many indices").
Proof.
  apply (@coherence_mlab_second_slice_fails (NdArray [8; 2; 2; 1]%nat (fun _ => 1%R))
           1000 4 8 2 2 1 eq_refl); simpl; lia.
Defined.

(** X17.  [freq] is assigned only inside the innermost loop: with an empty
    mode or state-variable axis, or with no node, the loops assign nothing
    and the final [return coh, freq] fails. *)
Theorem coherence_mlab_unbound_freq (data : ndarray R) (sr : R) (n : Z)
  (nt ns nn nm : nat) :
  shape data = [nt; ns; nn; nm] -> (-2 <= n)%Z ->
  nm = 0%nat \/ ns = 0%nat \/ (ns = 1%nat /\ nm = 1%nat /\ nn = 0%nat) ->
  outcome (coherence_mlab data sr n) =
  inl (UnboundLocalError "local variable 'freq' referenced before assignment").
Proof.
  intros Hsh Hn Hempty.
  assert (Hfl : (0 <= n / 2 + 1)%Z).
  { assert (-1 <= n / 2)%Z by (apply Z.div_le_lower_bound; lia). lia. }
  unfold coherence_mlab.
  rewrite Hsh, unpack4_four, bind_ret.
  destruct (Z.ltb_spec (n / 2 + 1) 0); [lia |].
  rewrite outcome_bind. cbn [tick outcome]. rewrite outcome_bind.
  destruct Hempty as [-> | [-> | [-> [-> ->]]]].
  - reflexivity.
  - rewrite for_each_fold with (tr := fun _ : nat => @nil kernel) (g := fun s (_ : nat) => s)
      by reflexivity.
    cbn [outcome].
    assert (Hid : forall (l : list nat) (s : mlab_vars), fold_left (fun s _ => s) l s = s).
    { induction l as [| a l IH]; intros s; [reflexivity | apply IH]. }
    rewrite Hid. reflexivity.
  - cbn [seq for_each v_data].
    rewrite (@slice_var_mode_4d data nt 1 0 1 0 0 Hsh) by lia.
    reflexivity.
Qed.

Lemma coherence_mlab_unbound_freq_witness :
  outcome (coherence_mlab (NdArray [8; 0; 2; 1]%nat (fun _ => 0%R)) 1000 4) =
  inl (UnboundLocalError "local variable 'freq' referenced before assignment").
Proof.
  apply (@coherence_mlab_unbound_freq (NdArray [8; 0; 2; 1]%nat (fun _ => 0%R))
           1000 4 8 0 2 1 eq_refl).
  - lia.
  - right. left. reflexivity.
Defined.

(** X18.  mlab.cohere needs two blocks: with at least one node, state
    variable and mode and fewer than 2 * nfft samples coherence_mlab fails
    with a ValueError in its first call of mlab.cohere, also where
    coherence, which needs one segment only, returns. *)
Theorem coherence_mlab_needs_two_blocks (data : ndarray R) (sr : R) (n : Z)
  (nt ns nn nm : nat) :
  shape data = [nt; ns; nn; nm] ->
  (1 <= ns)%nat -> (1 <= nn)%nat -> (1 <= nm)%nat ->
  (Z.of_nat nt < 2 * n)%Z ->
  exists msg,
    coherence_mlab data sr n = Run [KZeros; KDetrend; KCohere] (inl (ValueError msg)).
Proof.
  intros Hsh Hns Hnn Hnm Hshort.
  assert (Hn : (0 < n)%Z) by lia.
  assert (Hfl : (0 <= n / 2 + 1)%Z).
  { assert (0 <= n / 2)%Z by (apply Z.div_pos; lia). lia. }
  unfold coherence_mlab.
  rewrite Hsh, unpack4_four, bind_ret.
  destruct (Z.ltb_spec (n / 2 + 1) 0); [lia |].
  destruct nm as [| nm']; [lia |]. destruct ns as [| ns']; [lia |].
  destruct nn as [| nn']; [lia |].
  cbn [seq for_each v_data v_coh v_freq].
  rewrite (@slice_var_mode_4d data nt (S ns') (S nn') (S nm') 0 0 Hsh) by lia.
  rewrite bind_ret.
  unfold mlab_cohere at 1. cbn [remove_mean shape hd].
  destruct (Z.ltb_spec (Z.of_nat nt) (2 * n)); [| lia].
  eexists. reflexivity.
Qed.

Lemma coherence_mlab_needs_two_blocks_witness :
  exists msg,
    coherence_mlab (NdArray [6; 1; 2; 1]%nat (fun _ => 1%R)) 1000 4 =
    Run [KZeros; KDetrend; KCohere] (inl (ValueError msg)).
Proof.
  apply (@coherence_mlab_needs_two_blocks (NdArray [6; 1; 2; 1]%nat (fun _ => 1%R))
           1000 4 6 1 2 1 eq_refl); simpl; lia.
Defined.

(** X19.  coherence_mlab fails before any numerical work when the array is
    not 4-D (the unpacking of its shape) and when nfft / 2 + 1 is negative
    (numpy.zeros refuses the shape). *)
Theorem coherence_mlab_eager_errors (data : ndarray R) (sr : R) (n : Z) :
  (List.length (shape data) <> 4%nat ->
   exists msg, coherence_mlab data sr n = Run [] (inl (ValueError msg)) /\
               unpack_message msg = true) /\
  (List.length (shape data) = 4%nat -> (n < -2)%Z ->
   coherence_mlab data sr n =
   Run [] (inl (ValueError "negative dimensions are not allowed"))).
Proof.
  split.
  - intros H. destruct (unpack4_not_four (shape data) H) as [msg [Hu Hm]].
    exists msg. split; [| assumption].
    unfold coherence_mlab. rewrite Hu. reflexivity.
  - intros H Hneg.
    destruct (shape data) as [| a [| b [| c [| d [| e t]]]]] eqn:Hsh; try discriminate H.
    unfold coherence_mlab. rewrite Hsh, unpack4_four, bind_ret.
    assert (n / 2 + 1 < 0)%Z.
    { assert (n / 2 < -1)%Z by (apply Z.div_lt_upper_bound; lia). lia. }
    destruct (Z.ltb_spec (n / 2 + 1) 0); [reflexivity | lia].
Qed.

Lemma coherence_mlab_eager_errors_witness :
  (exists msg, coherence_mlab (NdArray [8; 2]%nat (fun _ => 0%R)) 1000 4 =
               Run [] (inl (ValueError msg)) /\ unpack_message msg = true) /\
  coherence_mlab zero_series 1000 (-3) =
  Run [] (inl (ValueError "negative dimensions are not allowed")).
Proof.
  split.
  - apply (proj1 (coherence_mlab_eager_errors (NdArray [8; 2]%nat (fun _ => 0%R)) 1000 4)).
    simpl; lia.
  - apply (proj2 (coherence_mlab_eager_errors zero_series 1000 (-3))); [reflexivity | lia].
Defined.

(** ** The estimate of mlab.cohere lies in [0, 1] *)

Lemma le_of_sqr_le (x y : R) : (0 <= y)%R -> (x * x <= y * y)%R -> (x <= y)%R.
Proof. intros Hy H. destruct (Rle_lt_dec x y) as [| Hlt]; [assumption | nra]. Qed.

Lemma cauchy_schwarz_step (p q A B a1 a2 b1 b2 : R) :
  (p * p + q * q <= A * B)%R -> (0 <= A)%R -> (0 <= B)%R ->
  ((p + (a1 * b1 + a2 * b2)) * (p + (a1 * b1 + a2 * b2)) +
   (q + (a1 * b2 - a2 * b1)) * (q + (a1 * b2 - a2 * b1)) <=
   (A + (a1 * a1 + a2 * a2)) * (B + (b1 * b1 + b2 * b2)))%R.
Proof.
  intros H HA HB.
  set (u := (a1 * b1 + a2 * b2)%R). set (v := (a1 * b2 - a2 * b1)%R).
  set (al := (a1 * a1 + a2 * a2)%R). set (be := (b1 * b1 + b2 * b2)%R).
  assert (Hal : (0 <= al)%R) by (unfold al; nra).
  assert (Hbe : (0 <= be)%R) by (unfold be; nra).
  assert (Huv : (u * u + v * v = al * be)%R) by (unfold u, v, al, be; ring).
  assert (H1 : ((p * u + q * v) * (p * u + q * v) <= (A * B) * (al * be))%R).
  { assert (((p * u + q * v) * (p * u + q * v) <=
             (p * p + q * q) * (u * u + v * v))%R).
    { pose proof (Rle_0_sqr (p * v - q * u)) as Hs. unfold Rsqr in Hs. nra. }
    assert (0 <= al * be)%R by (apply Rmult_le_pos; assumption).
    rewrite Huv in *. nra. }
  assert (H2 : (2 * (p * u + q * v) <= A * be + B * al)%R).
  { apply le_of_sqr_le.
    - assert (0 <= A * be)%R by (apply Rmult_le_pos; assumption).
      assert (0 <= B * al)%R by (apply Rmult_le_pos; assumption). lra.
    - pose proof (Rle_0_sqr (A * be - B * al)) as Hs. unfold Rsqr in Hs. nra. }
  nra.
Qed.

(** Cauchy-Schwarz for the averaged cross spectrum. *)
Lemma cross_sum_bound (a b : nat -> complex) (l : list nat) :
  (Cnorm2 (Csum (map (fun w => Cmul (Cconj (a w)) (b w)) l)) <=
   fold_right Rplus 0 (map (fun w => Cnorm2 (a w)) l) *
   fold_right Rplus 0 (map (fun w => Cnorm2 (b w)) l))%R /\
  (0 <= fold_right Rplus 0 (map (fun w => Cnorm2 (a w)) l))%R /\
  (0 <= fold_right Rplus 0 (map (fun w => Cnorm2 (b w)) l))%R.
Proof.
  induction l as [| w l [IH [HA HB]]].
  - unfold Cnorm2, Csum, C0; cbn [map fold_right Re Im]. repeat split; lra.
  - cbn [map fold_right].
    change (Csum (Cmul (Cconj (a w)) (b w) :: map (fun w => Cmul (Cconj (a w)) (b w)) l))
      with (Cadd (Cmul (Cconj (a w)) (b w)) (Csum (map (fun w => Cmul (Cconj (a w)) (b w)) l))).
    pose proof (Cnorm2_nonneg (a w)). pose proof (Cnorm2_nonneg (b w)).
    split; [| split; lra].
    set (S := Csum _) in *.
    pose proof (@cauchy_schwarz_step (Re S) (Im S) _ _
                  (Re (a w)) (Im (a w)) (Re (b w)) (Im (b w)) IH HA HB) as Hstep.
    unfold Cnorm2, Cadd, Cmul, Cconj in *; cbn [Re Im] in *. nra.
Qed.

Lemma auto_sum_real (a : nat -> complex) (l : list nat) :
  Re (Csum (map (fun w => Cmul (Cconj (a w)) (a w)) l)) =
  fold_right Rplus 0%R (map (fun w => Cnorm2 (a w)) l).
Proof.
  induction l as [| w l IH]; [reflexivity |].
  cbn [map fold_right]. rewrite <- IH.
  unfold Csum, Cadd, Cmul, Cconj, Cnorm2; cbn [fold_right Re Im]. ring.
Qed.

Lemma mlab_csd_factor (NFFT nseg : nat) (Fs : R) (x y : nat -> R) (k : nat) :
  exists c : R,
    forall x' y' : nat -> R,
      mlab_csd NFFT nseg Fs x' y' k =
      Cscale c (Csum (map (fun w => Cmul (Cconj (mlab_block_fft NFFT x' w k))
                                         (mlab_block_fft NFFT y' w k))
                          (seq 0 nseg))).
Proof.
  eexists. intros x' y'. unfold mlab_csd.
  rewrite <- (map_map (fun w => Cmul (Cconj (mlab_block_fft NFFT x' w k))
                                    (mlab_block_fft NFFT y' w k))
                      (Cscale _)).
  rewrite Csum_scale.
  unfold Cscale at 1 2; cbn [Re Im].
  instantiate (1 := (/ INR nseg *
                     ((if ((1 <=? k) && (k <? NFFT / 2 + 1 - 1))%nat then 2 else 1)
                      / INR NFFT / Fs))%R).
  unfold Cscale. f_equal; ring.
Qed.

Lemma mlab_cxy_unit_interval (NFFT nseg : nat) (Fs : R) (x y : nat -> R) (k : nat) :
  mlab_cxy NFFT nseg Fs x y k = None \/
  exists v, mlab_cxy NFFT nseg Fs x y k = Some v /\ (0 <= v <= 1)%R.
Proof.
  unfold mlab_cxy, Rdiv_opt.
  destruct (Req_dec_T _ 0) as [| Hden]; [now left |]. right.
  eexists. split; [reflexivity |].
  destruct (mlab_csd_factor NFFT nseg Fs x y k) as [c Hc].
  unfold mlab_psd in *. rewrite Cabs_sqr. rewrite !Hc in *.
  destruct (cross_sum_bound (fun w => mlab_block_fft NFFT x w k)
                            (fun w => mlab_block_fft NFFT y w k) (seq 0 nseg))
    as [Hcs [HA HB]].
  assert (HRe : forall z, Re (Cscale c z) = (c * Re z)%R) by reflexivity.
  rewrite !HRe in *.
  rewrite !auto_sum_real in *.
  set (A := fold_right Rplus 0%R (map (fun w => Cnorm2 (mlab_block_fft NFFT x w k)) (seq 0 nseg))) in *.
  set (B := fold_right Rplus 0%R (map (fun w => Cnorm2 (mlab_block_fft NFFT y w k)) (seq 0 nseg))) in *.
  set (S := Csum _) in *.
  assert (Hnum : Cnorm2 (Cscale c S) = (c * c * Cnorm2 S)%R)
    by (unfold Cnorm2, Cscale; cbn [Re Im]; ring).
  rewrite Hnum.
  assert (Hcc : (0 <= c * c)%R) by nra.
  assert (Hden' : (0 < c * A * (c * B))%R).
  { assert (0 <= c * A * (c * B))%R by (replace (c * A * (c * B))%R with (c * c * (A * B))%R by ring;
      apply Rmult_le_pos; [assumption | now apply Rmult_le_pos]).
    lra. }
  pose proof (Cnorm2_nonneg S) as HS.
  split.
  - apply Rmult_le_pos; [now apply Rmult_le_pos |]. left. now apply Rinv_0_lt_compat.
  - apply Rmult_le_reg_r with (r := (c * A * (c * B))%R); [assumption |].
    unfold Rdiv. rewrite Rmult_assoc, Rinv_l, Rmult_1_r, Rmult_1_l by lra. nra.
Qed.

(** X20.  For a valid series with one state variable and one mode, every
    entry of the array coherence_mlab returns is either non-finite (a zero
    autopower) or a number of [0, 1]: the quotient is taken on spectra
    averaged over the blocks, for which Cauchy-Schwarz holds. *)
Theorem coherence_mlab_entries_bounded (data : ndarray R) (sr : R) (n : Z) (nt nn : nat) :
  shape data = [nt; 1; nn; 1]%nat -> (0 < n)%Z -> (2 * n <= Z.of_nat nt)%Z -> (1 <= nn)%nat ->
  exists tr arr freq,
    coherence_mlab data sr n = Run tr (inr (arr, freq)) /\
    forall k i j, (k < Z.to_nat n / 2 + 1)%nat -> (i < nn)%nat -> (j < nn)%nat ->
      item arr [k; i; j; 0; 0]%nat = None \/
      exists v, item arr [k; i; j; 0; 0]%nat = Some v /\ (0 <= v <= 1)%R.
Proof.
  intros Hsh Hn Hlen Hnn.
  destruct (coherence_mlab_valid data sr Hsh Hn Hlen Hnn)
    as [tr [arr [freq [Hm [_ Hent]]]]].
  exists tr, arr, freq. split; [exact Hm |].
  intros k i j Hk Hi Hj. rewrite Hent by assumption.
  apply mlab_cxy_unit_interval.
Qed.

Lemma coherence_mlab_entries_bounded_witness :
  exists tr arr freq,
    coherence_mlab flipped_series 1000 4 = Run tr (inr (arr, freq)) /\
    (item arr [1; 0; 1; 0; 0]%nat = None \/
     exists v, item arr [1; 0; 1; 0; 0]%nat = Some v /\ (0 <= v <= 1)%R).
Proof.
  destruct (@coherence_mlab_entries_bounded flipped_series 1000 4 8 2 eq_refl
              ltac:(lia) ltac:(simpl; lia) ltac:(lia)) as [tr [arr [freq [Hm Hall]]]].
  exists tr, arr, freq. split; [exact Hm |].
  apply Hall; simpl; lia.
Defined.

Lemma Csum_conj {A} (g : A -> complex) (l : list A) :
  Csum (map (fun w => Cconj (g w)) l) = Cconj (Csum (map g l)).
Proof.
  induction l as [| a l IH].
  - unfold Csum, Cconj, C0; cbn [map fold_right Re Im]. f_equal; ring.
  - change (Csum (map (fun w => Cconj (g w)) (a :: l)))
      with (Cadd (Cconj (g a)) (Csum (map (fun w => Cconj (g w)) l))).
    rewrite IH. change (Csum (map g (a :: l))) with (Cadd (g a) (Csum (map g l))).
    unfold Cadd, Cconj; cbn [Re Im]. f_equal; ring.
Qed.

Lemma mlab_cxy_sym (NFFT nseg : nat) (Fs : R) (x y : nat -> R) (k : nat) :
  mlab_cxy NFFT nseg Fs x y k = mlab_cxy NFFT nseg Fs y x k.
Proof.
  unfold mlab_cxy. rewrite (Rmult_comm (mlab_psd NFFT nseg Fs x k)). f_equal.
  rewrite !Cabs_sqr.
  destruct (mlab_csd_factor NFFT nseg Fs x y k) as [c Hc]. rewrite !Hc.
  assert (Hswap : Csum (map (fun w => Cmul (Cconj (mlab_block_fft NFFT y w k))
                                           (mlab_block_fft NFFT x w k)) (seq 0 nseg)) =
                  Cconj (Csum (map (fun w => Cmul (Cconj (mlab_block_fft NFFT x w k))
                                                  (mlab_block_fft NFFT y w k)) (seq 0 nseg)))).
  { rewrite <- Csum_conj. f_equal. apply map_ext. intros w.
    unfold Cmul, Cconj; cbn [Re Im]. f_equal; ring. }
  rewrite Hswap. unfold Cnorm2, Cscale, Cconj; cbn [Re Im]. ring.
Qed.

(** X21.  For a valid series with one state variable and one mode the array
    coherence_mlab returns is symmetric in the node pair. *)
Theorem coherence_mlab_symmetric (data : ndarray R) (sr : R) (n : Z) (nt nn : nat) :
  shape data = [nt; 1; nn; 1]%nat -> (0 < n)%Z -> (2 * n <= Z.of_nat nt)%Z -> (1 <= nn)%nat ->
  exists tr arr freq,
    coherence_mlab data sr n = Run tr (inr (arr, freq)) /\
    forall k i j, (k < Z.to_nat n / 2 + 1)%nat -> (i < nn)%nat -> (j < nn)%nat ->
      item arr [k; i; j; 0; 0]%nat = item arr [k; j; i; 0; 0]%nat.
Proof.
  intros Hsh Hn Hlen Hnn.
  destruct (coherence_mlab_valid data sr Hsh Hn Hlen Hnn)
    as [tr [arr [freq [Hm [_ Hent]]]]].
  exists tr, arr, freq. split; [exact Hm |].
  intros k i j Hk Hi Hj. rewrite !Hent by assumption.
  apply mlab_cxy_sym.
Qed.

Lemma coherence_mlab_symmetric_witness :
  exists tr arr freq,
    coherence_mlab flipped_series 1000 4 = Run tr (inr (arr, freq)) /\
    item arr [1; 0; 1; 0; 0]%nat = item arr [1; 1; 0; 0; 0]%nat.
Proof.
  destruct (@coherence_mlab_symmetric flipped_series 1000 4 8 2 eq_refl
              ltac:(lia) ltac:(simpl; lia) ltac:(lia)) as [tr [arr [freq [Hm Hall]]]].
  exists tr, arr, freq. split; [exact Hm |].
  apply Hall; simpl; lia.
Defined.

(** The frequencies returned with the array, for one state variable and mode. *)
Lemma coherence_mlab_valid_axis (data : ndarray R) (sr : R) (n : Z) (nt nn : nat) :
  shape data = [nt; 1; nn; 1]%nat -> (0 < n)%Z -> (2 * n <= Z.of_nat nt)%Z -> (1 <= nn)%nat ->
  exists tr arr,
    coherence_mlab data sr n =
    Run tr (inr (arr, map (fun k => (sr / INR (Z.to_nat n) * INR k)%R)
                          (seq 0 (Z.to_nat n / 2 + 1)))).
Proof.
  intros Hsh Hn Hlen Hnn.
  assert (Hfl : (0 <= n / 2 + 1)%Z).
  { assert (0 <= n / 2)%Z by (apply Z.div_pos; lia). lia. }
  unfold coherence_mlab.
  rewrite Hsh, unpack4_four, bind_ret.
  destruct (Z.ltb_spec (n / 2 + 1) 0); [lia |].
  cbn [seq for_each v_data v_coh v_freq].
  rewrite (@slice_var_mode_4d data nt 1 nn 1 0 0 Hsh) by lia.
  rewrite bind_ret.
  rewrite node_loops by (cbn [remove_mean shape hd]; assumption).
  cbn [remove_mean shape hd item].
  set (init := {| v_data := _; v_coh := _; v_freq := None |}).
  pose (cxy := fun n1 n2 : nat =>
                 map (mlab_cxy (Z.to_nat n) (nt / Z.to_nat n) sr
                        (mlab_channel data nt 0 0 n1) (mlab_channel data nt 0 0 n2))
                     (seq 0 (Z.to_nat n / 2 + 1))).
  pose (freq := map (fun k => (sr / INR (Z.to_nat n) * INR k)%R) (seq 0 (Z.to_nat n / 2 + 1))).
  set (V := fold_left _ (seq 0 nn) init).
  destruct (outer_loop_vars cxy freq 0 0 (seq 0 nn) (seq 0 nn) init) as [_ Hf].
  cbn zeta in Hf.
  assert (Hfreq : v_freq V = Some freq).
  { apply Hf. right. destruct nn; [lia |]. split; discriminate. }
  unfold bind, tick, ret; cbn [outcome trace]. rewrite Hfreq. cbn [outcome trace].
  do 2 eexists. reflexivity.
Qed.

(** X22.  The two estimators label their common bins differently:
    coherence_mlab counts the frequencies in units of the sample rate,
    coherence in units of sample_rate / 1000, so that bin [f] of coherence
    and bin [f + 1] of coherence_mlab, the same bin of the transform, carry
    frequencies in the ratio 1 : 1000. *)
Theorem estimators_frequency_units (data : ndarray R) (sr : R) (n : Z) (nt nn : nat) :
  shape data = [nt; 1; nn; 1]%nat -> (0 < n)%Z -> (2 * n <= Z.of_nat nt)%Z ->
  (1 <= nn)%nat -> (0 < sr)%R ->
  exists arr fs tr arr' fs',
    coherence data sr n false =
    Run [KSegment; KWindow; KFFT; KFFTFreq; KCrossPower; KNormalise] (inr (arr, fs)) /\
    coherence_mlab data sr n = Run tr (inr (arr', fs')) /\
    List.length fs = Z.to_nat ((n - 1) / 2) /\
    List.length fs' = Z.to_nat (n / 2 + 1) /\
    forall f, (f < Z.to_nat ((n - 1) / 2))%nat ->
      nth f fs 0%R = (INR (S f) * sr / (1000 * IZR n))%R /\
      nth (S f) fs' 0%R = (1000 * nth f fs 0)%R.
Proof.
  intros Hsh Hn Hlen Hnn Hsr.
  assert (Hn' : (0 < n <= Z.of_nat nt)%Z) by lia.
  destruct (@coherence_valid_result data sr n false nt 1 nn 1 Hsh ltac:(lia) Hn' Hsr)
    as [Hc _].
  destruct (coherence_mlab_valid_axis data sr Hsh Hn Hlen Hnn) as [tr [arr' Hm]].
  assert (Hhalf : (Z.to_nat n / 2 + 1)%nat = Z.to_nat (n / 2 + 1)).
  { assert (Hd : (Z.of_nat (Z.to_nat n / 2) = n / 2)%Z).
    { rewrite Nat2Z.inj_div, Z2Nat.id by lia. reflexivity. }
    assert (0 <= n / 2)%Z by (apply Z.div_pos; lia). lia. }
  do 5 eexists. split; [exact Hc |]. split; [exact Hm |].
  split; [now rewrite length_map, length_seq |].
  split; [now rewrite length_map, length_seq |].
  intros f Hf.
  assert (Hfs : nth f (map (fun k => (INR k * sr / (1000 * IZR n))%R)
                          (seq 1 (Z.to_nat ((n - 1) / 2)))) 0%R =
                (INR (S f) * sr / (1000 * IZR n))%R).
  { rewrite nth_indep with (d' := (INR 0 * sr / (1000 * IZR n))%R)
      by (rewrite length_map, length_seq; lia).
    rewrite map_nth with (f := fun k => (INR k * sr / (1000 * IZR n))%R).
    now rewrite seq_nth by lia. }
  split; [exact Hfs |]. rewrite Hfs.
  assert (Hb : (Z.of_nat (S f) <= (n - 1) / 2)%Z) by lia.
  assert (Hh : ((n - 1) / 2 <= n / 2)%Z) by (apply Z.div_le_mono; lia).
  rewrite nth_indep with (d' := (sr / INR (Z.to_nat n) * INR 0)%R)
    by (rewrite length_map, length_seq; lia).
  rewrite map_nth with (f := fun k => (sr / INR (Z.to_nat n) * INR k)%R).
  rewrite seq_nth by lia. cbn [Nat.add].
  rewrite (INR_IZR_INZ (Z.to_nat n)), Z2Nat.id by lia.
  assert (IZR n <> 0%R) by (apply not_0_IZR; lia).
  field. assumption.
Qed.

Lemma estimators_frequency_units_witness :
  exists arr fs tr arr' fs',
    coherence impulse_series 1000 4 false =
    Run [KSegment; KWindow; KFFT; KFFTFreq; KCrossPower; KNormalise] (inr (arr, fs)) /\
    coherence_mlab impulse_series 1000 4 = Run tr (inr (arr', fs')) /\
    List.length fs = Z.to_nat ((4 - 1) / 2) /\
    List.length fs' = Z.to_nat (4 / 2 + 1) /\
    forall f, (f < Z.to_nat ((4 - 1) / 2))%nat ->
      nth f fs 0%R = (INR (S f) * 1000 / (1000 * IZR 4))%R /\
      nth (S f) fs' 0%R = (1000 * nth f fs 0)%R.
Proof.
  apply (@estimators_frequency_units impulse_series 1000 4 8 2 eq_refl).
  - lia.
  - simpl; lia.
  - lia.
  - lra.
Defined.

Lemma flat_map_const_repeat {A B} (x : B) (l : list A) (k : nat) :
  flat_map (fun _ => repeat x k) l = repeat x (List.length l * k).
Proof.
  induction l as [| a l IH]; [reflexivity |].
  cbn [flat_map List.length Nat.mul]. now rewrite IH, repeat_app.
Qed.

(** X24.  For a valid series with one state variable and one mode,
    coherence_mlab allocates once, detrends once and then calls mlab.cohere
    once for every ordered pair of nodes, the pairs (i, i) and both orders
    of (i, j) included; coherence runs each of its kernels once. *)
Theorem coherence_mlab_calls_per_pair (data : ndarray R) (sr : R) (n : Z) (nt nn : nat) :
  shape data = [nt; 1; nn; 1]%nat -> (0 < n)%Z -> (2 * n <= Z.of_nat nt)%Z -> (1 <= nn)%nat ->
  trace (coherence_mlab data sr n) = KZeros :: KDetrend :: repeat KCohere (nn * nn).
Proof.
  intros Hsh Hn Hlen Hnn.
  assert (Hfl : (0 <= n / 2 + 1)%Z).
  { assert (0 <= n / 2)%Z by (apply Z.div_pos; lia). lia. }
  unfold coherence_mlab.
  rewrite Hsh, unpack4_four, bind_ret.
  destruct (Z.ltb_spec (n / 2 + 1) 0); [lia |].
  cbn [seq for_each v_data v_coh v_freq].
  rewrite (@slice_var_mode_4d data nt 1 nn 1 0 0 Hsh) by lia.
  rewrite bind_ret.
  rewrite node_loops by (cbn [remove_mean shape hd]; assumption).
  cbn [remove_mean shape hd item].
  set (init := {| v_data := _; v_coh := _; v_freq := None |}).
  pose (cxy := fun n1 n2 : nat =>
                 map (mlab_cxy (Z.to_nat n) (nt / Z.to_nat n) sr
                        (mlab_channel data nt 0 0 n1) (mlab_channel data nt 0 0 n2))
                     (seq 0 (Z.to_nat n / 2 + 1))).
  pose (freq := map (fun k => (sr / INR (Z.to_nat n) * INR k)%R) (seq 0 (Z.to_nat n / 2 + 1))).
  set (V := fold_left _ (seq 0 nn) init).
  destruct (outer_loop_vars cxy freq 0 0 (seq 0 nn) (seq 0 nn) init) as [_ Hf].
  cbn zeta in Hf.
  assert (Hfreq : v_freq V = Some freq).
  { apply Hf. right. destruct nn; [lia |]. split; discriminate. }
  unfold bind, tick, ret; cbn [outcome trace]. rewrite Hfreq. cbn [outcome trace app].
  rewrite !app_nil_r. do 2 f_equal.
  change (fun _ : nat => [KCohere]) with (fun _ : nat => repeat KCohere 1).
  rewrite (flat_map_const_repeat KCohere (seq 0 nn) 1), length_seq, Nat.mul_1_r.
  now rewrite (flat_map_const_repeat KCohere (seq 0 nn) nn), length_seq.
Qed.

Lemma coherence_mlab_calls_per_pair_witness :
  trace (coherence_mlab impulse_series 1000 4) = KZeros :: KDetrend :: repeat KCohere (2 * 2).
Proof.
  apply (@coherence_mlab_calls_per_pair impulse_series 1000 4 8 2 eq_refl).
  - lia.
  - simpl; lia.
  - lia.
Defined.
